(** * Derenpy: the RPYC archive reader of [scripts/decompile.py]

    A shallow embedding of [read_ast_from_file] and of the library calls it
    makes ([bytes.startswith], slicing, [struct.unpack("III", _)], the
    [for ... in range] loop, the [chunks] dictionary), followed by the
    properties of the container format that the specification states. *)

From Stdlib Require Import NArith Lia.
From Stdlib Require Import Strings.Byte.
From stdpp Require Import gmap strings list.

Local Open Scope N_scope.

(** ** Bytes and slices *)

Abbreviation bytes := (list byte).

(** [b"RENPY RPC2"] *)
Definition magic : bytes :=
  [x52; x45; x4e; x50; x59; x20; x52; x50; x43; x32].

(** [raw.startswith(prefix)] *)
Fixpoint startswith (raw pre : bytes) : bool :=
  match pre, raw with
  | [], _ => true
  | _ :: _, [] => false
  | p :: pre', b :: raw' => if Byte.eqb b p then startswith raw' pre' else false
  end.

(** The slice [l[lo:hi]] for non-negative [lo] and [hi].  Python clamps both
    ends to the length of [l] and never raises; the recursion is on the
    buffer, so offsets far beyond its end cost nothing. *)
Fixpoint drop_N {A} (n : N) (l : list A) : list A :=
  match l with
  | [] => []
  | _ :: t => if n =? 0 then l else drop_N (N.pred n) t
  end.

Fixpoint take_N {A} (n : N) (l : list A) : list A :=
  match l with
  | [] => []
  | x :: t => if n =? 0 then [] else x :: take_N (N.pred n) t
  end.

Definition slice {A} (l : list A) (lo hi : N) : list A :=
  take_N (hi - lo) (drop_N lo l).

(** ** [struct.unpack("III", buf)]

    The format string has no byte-order prefix, so [struct] uses the native
    byte order of the host ([sys.byteorder]); an [I] is a C [unsigned int],
    four bytes wide, and three of them need no padding. *)
Inductive byteorder : Set := little | big.

Definition uint32_le (b0 b1 b2 b3 : byte) : N :=
  Byte.to_N b0 + N.shiftl (Byte.to_N b1) 8
  + N.shiftl (Byte.to_N b2) 16 + N.shiftl (Byte.to_N b3) 24.

Definition unpack_I (bo : byteorder) (b0 b1 b2 b3 : byte) : N :=
  match bo with
  | little => uint32_le b0 b1 b2 b3
  | big => uint32_le b3 b2 b1 b0
  end.

(** The byte orders in words: the value of four bytes read with the least
    significant byte first, and with the most significant byte first. *)
Definition little_endian_value (b0 b1 b2 b3 : byte) : N :=
  Byte.to_N b0 + 256 * Byte.to_N b1 + 65536 * Byte.to_N b2
  + 16777216 * Byte.to_N b3.

Definition big_endian_value (b0 b1 b2 b3 : byte) : N :=
  16777216 * Byte.to_N b0 + 65536 * Byte.to_N b1 + 256 * Byte.to_N b2
  + Byte.to_N b3.

(** [None] stands for [struct.error] ("unpack requires a buffer of 12
    bytes"), raised whenever the buffer is not exactly twelve bytes long. *)
Definition unpack_III (bo : byteorder) (buf : bytes) : option (N * N * N) :=
  match buf with
  | [a0; a1; a2; a3; b0; b1; b2; b3; c0; c1; c2; c3] =>
      Some (unpack_I bo a0 a1 a2 a3, unpack_I bo b0 b1 b2 b3,
            unpack_I bo c0 c1 c2 c3)
  | _ => None
  end.

(** The inverse direction, [struct.pack("III", slot, start, length)], used to
    build archives. *)
Definition byte_of_N (n : N) : byte :=
  match Byte.of_N (n mod 256) with
  | Some b => b
  | None => x00
  end.

Definition pack_I (bo : byteorder) (n : N) : bytes :=
  let le := [byte_of_N n; byte_of_N (N.shiftr n 8);
             byte_of_N (N.shiftr n 16); byte_of_N (N.shiftr n 24)] in
  match bo with
  | little => le
  | big => rev le
  end.

Definition pack_III (bo : byteorder) (r : N * N * N) : bytes :=
  let '(slot, start, len) := r in
  pack_I bo slot ++ pack_I bo start ++ pack_I bo len.

(** ** Exceptions and results *)

(** The exceptions [read_ast_from_file] can end with.  The specification
    names them by role: [struct_error] is its TruncatedError, [ValueError] its
    FormatError, [zlib_error] its DecompressionError; the last two are raised
    by the deserializer. *)
Inductive exn : Type :=
| struct_error
| ValueError (msg : string)
| zlib_error
| UnsupportedTypeError
| MalformedStreamError.

Inductive res (A : Type) : Type :=
| Return (a : A)
| Raise (e : exn).
Arguments Return {A} a.
Arguments Raise {A} e.

#[global] Instance res_ret : MRet res := fun A a => Return a.

#[global] Instance res_bind : MBind res := fun A B k r =>
  match r with
  | Return a => k a
  | Raise e => Raise e
  end.

(** ** [for i in range(lo, hi)] with [break]

    One pass of a loop body either falls through to the next iteration,
    leaves the loop, or raises. *)
Inductive flow (S : Type) : Type :=
| Continue (s : S)
| Break (s : S)
| Throw (e : exn).
Arguments Continue {S} s.
Arguments Break {S} s.
Arguments Throw {S} e.

Section Loops.
Context {S : Type}.
Variable body : N -> S -> flow S.

(** [n] iterations, at the indices [i], [i+1], ... *)
Fixpoint for_nat (n : nat) (i : N) (s : S) : flow S :=
  match n with
  | O => Continue s
  | Datatypes.S m =>
      match body i s with
      | Continue s' => for_nat m (i + 1) s'
      | r => r
      end
  end.

(** The same iterations counted in binary, so that a range of four thousand
    million indices is no obstacle to running the loop: an iteration that
    leaves the loop is the last one evaluated. *)
Fixpoint for_pos (p : positive) (i : N) (s : S) : flow S :=
  match p with
  | xH => body i s
  | xO q =>
      match for_pos q i s with
      | Continue s' => for_pos q (i + N.pos q) s'
      | r => r
      end
  | xI q =>
      match body i s with
      | Continue s' =>
          match for_pos q (i + 1) s' with
          | Continue s'' => for_pos q (i + 1 + N.pos q) s''
          | r => r
          end
      | r => r
      end
  end.

Definition for_range (lo hi : N) (s : S) : flow S :=
  match hi - lo with
  | N0 => Continue s
  | N.pos p => for_pos p lo s
  end.
End Loops.

(** ** The archive reader: lines 28-52 of [read_ast_from_file] *)

(** The loop variables [position] and [chunks]. *)
Record scan_state : Type := mk_scan {
  position : N;
  chunks : gmap N bytes
}.

(** Lines 39-47, the body of the loop over [expected_slot]. *)
Definition scan_body (bo : byteorder) (raw : bytes)
    (expected_slot : N) (st : scan_state) : flow scan_state :=
  match unpack_III bo (slice raw (position st) (position st + 12)) with
  | None => Throw struct_error
  | Some (slot, start, len) =>
      if slot =? 0 then Break st
      else Continue (mk_scan (position st + 12)
                       (<[slot := slice raw start (start + len)]> (chunks st)))
  end.

(** Lines 35-47: [position = 10], [chunks = {}] and the loop
    [for expected_slot in range(1, 0xFFFFFFFF)]. *)
Definition scan (bo : byteorder) (raw : bytes) : flow scan_state :=
  for_range (scan_body bo raw) 1 0xFFFFFFFF (mk_scan 10 ∅).

Definition no_data_slot : string := "Unable to find data slot in RPYC file".

(** Lines 30-52: the value of [contents] before it is decompressed.  The
    specification calls this stage [read_payload]. *)
Definition read_payload (bo : byteorder) (raw : bytes) : res bytes :=
  if negb (startswith raw magic) then Return raw
  else
    match scan bo raw with
    | Throw e => Raise e
    | Continue st | Break st =>
        match chunks st !! 1 with
        | None => Raise (ValueError no_data_slot)
        | Some contents => Return contents
        end
    end.

(** ** The deserializer

    [pickle_safe_loads] comes from the vendored decompiler
    ([decompiler.renpycompat]), which is not part of [scripts/]. *)

(** Modelled from the spec: the object graph of section 3, which
    [pickle_safe_loads] of the vendored [decompiler.renpycompat] builds:
    scalars, ordered sequences, key-ordered mappings, fixed-shape records and
    objects of an allow-listed type.  Values are trees here; the identity of
    shared or cyclic objects plays no part in the properties below. *)
#[warnings="-register-all"]
Inductive value : Type :=
| VNone
| VBool (b : bool)
| VInt (z : Z)
| VStr (s : string)
| VSeq (items : list value)
| VMap (entries : list (value * value))
| VRecord (fields : list value)
| VObj (type_name : string) (fields : list value).

Module SafeLoads.

(** Modelled from the spec: the opcode families of section 4.3 of the
    tagged encoding read by the absent [pickle_safe_loads].  The
    specification leaves the wire format to the serialization protocol, so
    a stream is taken as the sequence of its opcodes: scalar literals, the
    builders of containers from the top of the stack, the construction of a
    typed object, memo stores and loads, the end-of-stream mark.  [Unknown]
    stands for a position that holds no opcode or a truncated operand. *)
Inductive opcode : Type :=
| PushNone
| PushBool (b : bool)
| PushInt (z : Z)
| PushStr (s : string)
| BuildSeq (n : nat)
| BuildMap (n : nat)
| BuildRecord (n : nat)
| Construct
| MemoPut (i : nat)
| MemoGet (i : nat)
| Stop
| Unknown.

(** Modelled from the spec: a constructor recipe of the Allow-list of the
    absent deserializer (section 3): how many positional fields the type
    takes and how the instance is built from them. *)
Record recipe : Type := mk_recipe {
  arity : nat;
  build : list value -> value
}.

(** Modelled from the spec: the interpreter state of the absent
    [pickle_safe_loads] (section 4.3): the operand stack, top first, and
    the ordered list of memo slots. *)
Record state : Type := mk_state {
  stack : list value;
  memo : list value
}.

(** Modelled from the spec: the state in which the absent deserializer
    starts, with nothing on the stack and no memo slot. *)
Definition initial : state := mk_state [] [].

(** Modelled from the spec: splitting [n] items off the top of the operand
    stack of the absent deserializer, oldest first; fewer than [n] items is
    a stack underflow. *)
Definition pop_n (n : nat) (stk : list value) : res (list value * list value) :=
  if (n <=? length stk)%nat then Return (rev (take n stk), drop n stk)
  else Raise MalformedStreamError.

(** Modelled from the spec: pairing up the items of a mapping under
    construction in the absent deserializer, key then value. *)
Fixpoint pairs (l : list value) : list (value * value) :=
  match l with
  | k :: v :: l' => (k, v) :: pairs l'
  | _ => []
  end.

Section WithAllowList.
(** The fixed mapping from type name to constructor recipe. *)
Variable allow_list : gmap string recipe.

(** Modelled from the spec: one opcode of the absent [pickle_safe_loads]
    (section 4.3).  [Construct] pops the field values and the type
    identifier, looks the identifier up in the Allow-list and only then
    invokes the recipe; an identifier outside the list fails closed. *)
Definition step (op : opcode) (st : state) : res state :=
  match op with
  | PushNone => Return (mk_state (VNone :: stack st) (memo st))
  | PushBool b => Return (mk_state (VBool b :: stack st) (memo st))
  | PushInt z => Return (mk_state (VInt z :: stack st) (memo st))
  | PushStr s => Return (mk_state (VStr s :: stack st) (memo st))
  | BuildSeq n =>
      '(items, stk) ← pop_n n (stack st);
      Return (mk_state (VSeq items :: stk) (memo st))
  | BuildMap n =>
      '(items, stk) ← pop_n (2 * n) (stack st);
      Return (mk_state (VMap (pairs items) :: stk) (memo st))
  | BuildRecord n =>
      '(items, stk) ← pop_n n (stack st);
      Return (mk_state (VRecord items :: stk) (memo st))
  | Construct =>
      match stack st with
      | args :: VStr type_name :: stk =>
          match allow_list !! type_name with
          | None => Raise UnsupportedTypeError
          | Some r =>
              match args with
              | VRecord fields =>
                  if (length fields =? arity r)%nat
                  then Return (mk_state (build r fields :: stk) (memo st))
                  else Raise MalformedStreamError
              | _ => Raise MalformedStreamError
              end
          end
      | _ => Raise MalformedStreamError
      end
  | MemoPut i =>
      match stack st with
      | v :: _ =>
          if (i <? length (memo st))%nat
          then Return (mk_state (stack st) (<[i := v]> (memo st)))
          else if (i =? length (memo st))%nat
          then Return (mk_state (stack st) (memo st ++ [v]))
          else Raise MalformedStreamError
      | [] => Raise MalformedStreamError
      end
  | MemoGet i =>
      match memo st !! i with
      | Some v => Return (mk_state (v :: stack st) (memo st))
      | None => Raise MalformedStreamError
      end
  | Stop | Unknown => Raise MalformedStreamError
  end.

(** Modelled from the spec: the opcode loop of the absent
    [pickle_safe_loads]: opcode by opcode until the end-of-stream mark,
    which returns the top of the stack; a stream that ends without the
    mark is truncated. *)
Fixpoint run (stream : list opcode) (st : state) : res value :=
  match stream with
  | [] => Raise MalformedStreamError
  | Stop :: _ =>
      match stack st with
      | v :: _ => Return v
      | [] => Raise MalformedStreamError
      end
  | op :: stream' => st' ← step op st; run stream' st'
  end.

(** Modelled from the spec: the same loop of the absent deserializer on the
    front part of a stream, which holds no end-of-stream mark; it gives the
    state in which the opcode after that part is executed. *)
Fixpoint exec (stream : list opcode) (st : state) : res state :=
  match stream with
  | [] => Return st
  | Stop :: _ => Raise MalformedStreamError
  | op :: stream' => st' ← step op st; exec stream' st'
  end.

(** Modelled from the spec: the contract [deserialize] of section 4.3,
    which stands for the absent [pickle_safe_loads]: the root is the
    fixed-shape record (metadata, root object). *)
Definition deserialize (stream : list opcode) : res (value * value) :=
  root ← run stream initial;
  match root with
  | VRecord [metadata; root_object] => Return (metadata, root_object)
  | _ => Raise MalformedStreamError
  end.
End WithAllowList.

End SafeLoads.

(** ** [read_ast_from_file] *)

Section Pipeline.
(** [zlib.decompress] of the Python standard library and
    [pickle_safe_loads] of the vendored decompiler; line 55 unpacks the
    pair the latter returns. *)
Variable zlib_decompress : bytes -> res bytes.
Variable pickle_safe_loads : bytes -> res (value * value).

(** Lines 54-56. *)
Definition load_contents (contents : bytes) : res value :=
  contents ← zlib_decompress contents;
  '(_, stmts) ← pickle_safe_loads contents;
  Return stmts.

(** Lines 26-56, on the bytes [raw_contents] that [in_file.read()] gave. *)
Definition read_ast_from_file (bo : byteorder) (raw_contents : bytes) : res value :=
  contents ← read_payload bo raw_contents;
  load_contents contents.
End Pipeline.

(** ** The index as a list of records

    What the loop reads, record by record, for stating what it computes. *)

(** The value of [position] after [k] records. *)
Definition offset (k : nat) : N := 10 + 12 * N.of_nat k.

(** The [k]-th index record: the result of line 39 at [position = offset k]. *)
Definition record_at (bo : byteorder) (raw : bytes) (k : nat) : option (N * N * N) :=
  unpack_III bo (slice raw (offset k) (offset k + 12)).

(** [records] are the index records [k], [k+1], ... of [raw], each of them
    complete and with a non-zero slot. *)
Fixpoint records_from (bo : byteorder) (raw : bytes) (k : nat)
    (records : list (N * N * N)) : Prop :=
  match records with
  | [] => True
  | r :: records' =>
      record_at bo raw k = Some r /\ r.1.1 ≠ 0 /\ records_from bo raw (S k) records'
  end.

(** The number of indices in [range(1, 0xFFFFFFFF)]. *)
Definition scan_limit : positive := 4294967294.

(** The loop reaches the record after [records]: its range is not used up. *)
Definition in_range (records : list (N * N * N)) : Prop :=
  N.of_nat (length records) < N.pos scan_limit.

(** [records] are the records in front of the zero-slot terminator of [raw],
    and the loop reaches that terminator. *)
Definition terminated_index (bo : byteorder) (raw : bytes)
    (records : list (N * N * N)) : Prop :=
  records_from bo raw 0 records /\ in_range records /\
  exists start len, record_at bo raw (length records) = Some (0, start, len).

(** No index record of [raw] has slot zero. *)
Definition no_sentinel (bo : byteorder) (raw : bytes) : Prop :=
  forall k start len, record_at bo raw k ≠ Some (0, start, len).

(** Line 47 for one record, and for a list of them in file order. *)
Definition store (raw : bytes) (chunks : gmap N bytes) (r : N * N * N) : gmap N bytes :=
  <[r.1.1 := slice raw r.1.2 (r.1.2 + r.2)]> chunks.

Definition store_all (raw : bytes) (records : list (N * N * N)) : gmap N bytes :=
  fold_left (store raw) records ∅.

(** The dictionary [chunks] when the loop is left without an exception. *)
Definition final_chunks (bo : byteorder) (raw : bytes) : option (gmap N bytes) :=
  match scan bo raw with
  | Continue st | Break st => Some (chunks st)
  | Throw _ => None
  end.

(** An entry of [chunks]: the slot is a non-zero 32-bit number and the chunk
    is the slice a 32-bit [start] and [length] cut out of [raw]. *)
Definition chunk_ok (raw : bytes) (slot : N) (c : bytes) : Prop :=
  slot ≠ 0 /\ slot < 2 ^ 32 /\
  exists start len : N,
    start < 2 ^ 32 /\ len < 2 ^ 32 /\ c = slice raw start (start + len).

(** ** Building archives

    The script only reads archives.  The layouts the properties speak of are
    written down here: the marker, index records, a terminator, a body. *)

(** A record whose three fields fit an unsigned 32-bit integer. *)
Definition uint32_record (r : N * N * N) : Prop :=
  r.1.1 < 2 ^ 32 /\ r.1.2 < 2 ^ 32 /\ r.2 < 2 ^ 32.

(** An indexed archive with the given index records, a zero-slot terminator
    and [body] after it. *)
Definition indexed_archive (bo : byteorder) (records : list (N * N * N))
    (body : bytes) : bytes :=
  magic ++ concat (pack_III bo <$> records) ++ pack_III bo (0, 0, 0) ++ body.

(** The synthetic index of the round-trip property: one record for slot 1
    that addresses [payload], placed directly after the terminator. *)
Definition wrap (bo : byteorder) (payload : bytes) : bytes :=
  indexed_archive bo [(1, 34, N.of_nat (length payload))] payload.

(** ** Concrete collaborators for the examples *)

Module Examples.

(** A decoder for zlib streams (RFC 1950) whose deflate blocks are all stored
    blocks, as [zlib.compress(data, 0)] writes them: header check, stored
    blocks up to the final one, Adler-32 trailer.  Input after the trailer is
    ignored, as [zlib.decompress] does; Huffman-coded blocks are not decoded
    and are reported as an error. *)
Definition adler32 (data : bytes) : N :=
  let '(a, b) :=
    fold_left (fun '(a, b) x =>
                 let a' := (a + Byte.to_N x) mod 65521 in
                 (a', (b + a') mod 65521))
              data (1, 0) in
  N.shiftl b 16 + a.

Fixpoint stored_blocks (fuel : nat) (data out : bytes) : option (bytes * bytes) :=
  match fuel with
  | O => None
  | S fuel' =>
      match data with
      | hdr :: l0 :: l1 :: n0 :: n1 :: rest =>
          let len := Byte.to_N l0 + 256 * Byte.to_N l1 in
          let nlen := Byte.to_N n0 + 256 * Byte.to_N n1 in
          if negb (N.land (N.shiftr (Byte.to_N hdr) 1) 3 =? 0) then None
          else if negb (len + nlen =? 65535) then None
          else if N.of_nat (length rest) <? len then None
          else
            let out' := out ++ take_N len rest in
            if N.testbit (Byte.to_N hdr) 0 then Some (out', drop_N len rest)
            else stored_blocks fuel' (drop_N len rest) out'
      | _ => None
      end
  end.

Definition inflate_stored (data : bytes) : res bytes :=
  match data with
  | cmf :: flg :: body =>
      let c := Byte.to_N cmf in
      let f := Byte.to_N flg in
      if negb (N.land c 15 =? 8) then Raise zlib_error
      else if 7 <? N.shiftr c 4 then Raise zlib_error
      else if negb ((256 * c + f) mod 31 =? 0) then Raise zlib_error
      else if N.testbit f 5 then Raise zlib_error
      else
        match stored_blocks (length body) body [] with
        | Some (out, t0 :: t1 :: t2 :: t3 :: _) =>
            if unpack_I big t0 t1 t2 t3 =? adler32 out then Return out
            else Raise zlib_error
        | _ => Raise zlib_error
        end
  | _ => Raise zlib_error
  end.

(** The opcodes of pickle protocol 2 that the example streams use, read into
    the opcode families of the deserializer: PROTO, NONE, NEWTRUE, NEWFALSE,
    BININT1, SHORT_BINSTRING, EMPTY_LIST, EMPTY_TUPLE, TUPLE1-3, REDUCE,
    BINPUT, BINGET and STOP. *)
Definition string_of_bytes (bs : bytes) : string :=
  String.string_of_list_byte bs.

Fixpoint pickle_opcodes (fuel : nat) (data : bytes) : list SafeLoads.opcode :=
  match fuel with
  | O => []
  | S fuel' =>
      match data with
      | [] => []
      | x80 :: _ :: rest => pickle_opcodes fuel' rest
      | x4e :: rest => SafeLoads.PushNone :: pickle_opcodes fuel' rest
      | x88 :: rest => SafeLoads.PushBool true :: pickle_opcodes fuel' rest
      | x89 :: rest => SafeLoads.PushBool false :: pickle_opcodes fuel' rest
      | x4b :: n :: rest =>
          SafeLoads.PushInt (Z.of_N (Byte.to_N n)) :: pickle_opcodes fuel' rest
      | x55 :: n :: rest =>
          if N.of_nat (length rest) <? Byte.to_N n then [SafeLoads.Unknown]
          else SafeLoads.PushStr (string_of_bytes (take_N (Byte.to_N n) rest))
                 :: pickle_opcodes fuel' (drop_N (Byte.to_N n) rest)
      | x5d :: rest => SafeLoads.BuildSeq 0 :: pickle_opcodes fuel' rest
      | x29 :: rest => SafeLoads.BuildRecord 0 :: pickle_opcodes fuel' rest
      | x85 :: rest => SafeLoads.BuildRecord 1 :: pickle_opcodes fuel' rest
      | x86 :: rest => SafeLoads.BuildRecord 2 :: pickle_opcodes fuel' rest
      | x87 :: rest => SafeLoads.BuildRecord 3 :: pickle_opcodes fuel' rest
      | x52 :: rest => SafeLoads.Construct :: pickle_opcodes fuel' rest
      | x71 :: i :: rest =>
          SafeLoads.MemoPut (N.to_nat (Byte.to_N i)) :: pickle_opcodes fuel' rest
      | x68 :: i :: rest =>
          SafeLoads.MemoGet (N.to_nat (Byte.to_N i)) :: pickle_opcodes fuel' rest
      | x2e :: _ => [SafeLoads.Stop]
      | _ => [SafeLoads.Unknown]
      end
  end.

(** An Allow-list with one type, for the examples. *)
Definition allow_list : gmap string SafeLoads.recipe :=
  {[ "renpy.ast.Return" := SafeLoads.mk_recipe 0 (VObj "renpy.ast.Return") ]}.

Definition safe_loads (stream : bytes) : res (value * value) :=
  SafeLoads.deserialize allow_list (pickle_opcodes (length stream) stream).

(** [pickle.dumps((None, []), 2)] and [zlib.compress(_, 0)] of it. *)
Definition pickled_pair : bytes :=
  [x80; x02; x4e; x5d; x71; x00; x86; x71; x01; x2e].

Definition compressed_pair : bytes :=
  [x78; x01; x01; x0a; x00; xf5; xff] ++ pickled_pair ++ [x10; x58; x02; xc5].

(** The archive of the end-to-end example as the specification lays it out:
    the record says offset 22, and the compressed bytes follow the
    terminator. *)
Definition pair_at_22 : bytes :=
  indexed_archive little [(1, 22, 21)] compressed_pair.

(** A slot-1 record that declares a hundred bytes in front of three. *)
Definition short_archive : bytes :=
  indexed_archive little [(1, 34, 100)] [x01; x02; x03].

(** Records for the slots 2 and 3 only. *)
Definition no_slot_1 : bytes :=
  indexed_archive little [(2, 46, 1); (3, 47, 1)] [xaa; xbb].

(** Slot 1 named twice, with slot 2 in between. *)
Definition slot_1_twice : bytes :=
  indexed_archive little [(1, 58, 1); (2, 58, 2); (1, 59, 2)] [xaa; xbb; xcc].

(** One record and no terminator. *)
Definition unterminated : bytes := magic ++ pack_III little (1, 22, 4).

(** As many records for slot 1 as the range of the loop has indices, and
    nothing after them. *)
Definition huge_archive : bytes :=
  magic ++ concat (pack_III little <$> replicate (Pos.to_nat scan_limit) (1, 0, 0)).

(** The little-endian encoding of the record (1, 22, 5). *)
Definition record_1_22_5 : bytes :=
  [x01; x00; x00; x00; x16; x00; x00; x00; x05; x00; x00; x00].

(** A stream that asks for an object of a type outside [allow_list]:
    the identifier, one argument, the record of arguments. *)
Definition unlisted_prefix : list SafeLoads.opcode :=
  [SafeLoads.PushStr "os.system"; SafeLoads.PushStr "id";
   SafeLoads.BuildRecord 1].

End Examples.

(** ** Paths: what [main] uses of [pathlib] *)

(** A path as [pathlib] holds it: the components in front of the final one,
    and the final component [name], which is empty for a root and for [.]. *)
Record path : Type := mk_path {
  parent : list string;
  name : string
}.

(** The character [.], code 46. *)
Definition dot : Ascii.ascii :=
  Ascii.Ascii false true true true false true false false.

(** [name.rfind('.')] as a split: the text in front of the last dot and the
    text behind it; [None] when the name has no dot. *)
Fixpoint rsplit_dot (s : string) : option (string * string) :=
  match s with
  | EmptyString => None
  | String c s' =>
      match rsplit_dot s' with
      | Some (front, back) => Some (String c front, back)
      | None => if Ascii.eqb c dot then Some (EmptyString, s') else None
      end
  end.

(** [PurePath.suffix] and [PurePath.stem] (CPython 3.8 to 3.13): with
    [i = name.rfind('.')], the suffix is [name[i:]] when
    [0 < i < len(name) - 1] and empty otherwise; the stem is the rest. *)
Definition suffix (p : path) : string :=
  match rsplit_dot (name p) with
  | Some (String _ _, String c back) => String dot (String c back)
  | _ => EmptyString
  end.

Definition stem (p : path) : string :=
  match rsplit_dot (name p) with
  | Some (String c front, String _ _) => String c front
  | _ => name p
  end.

(** [PurePath.with_suffix(new)] for the suffixes [main] passes, [".rpy"] and
    [".rpym"], which are valid ones: [None] stands for the [ValueError] raised
    for a path with an empty name. *)
Definition with_suffix (p : path) (new : string) : option path :=
  match name p with
  | EmptyString => None
  | _ => Some (mk_path (parent p) (stem p +:+ new))
  end.

(** Lines 91-97 of [main]: the output path when none is given. *)
Definition default_output (input_path : path) : option path :=
  if String.eqb (suffix input_path) ".rpyc" then with_suffix input_path ".rpy"
  else if String.eqb (suffix input_path) ".rpymc" then with_suffix input_path ".rpym"
  else with_suffix input_path ".rpy".

(** ** The calls that leave the script *)

(** A JSON value of the dictionaries the script prints. *)
Inductive json : Type :=
| JString (s : string)
| JBool (b : bool).

(** One call out of the script together with its outcome: [Some msg] for an
    exception whose [str()] is [msg], [None] for a normal return.  [Printed]
    is [print(json.dumps(d))] for the dictionary with the given items, in
    insertion order. *)
Inductive event : Type :=
| Opened (p : path) (mode : string) (raised : option string)
| ReadAll (p : path) (got : string + bytes)
| Closed (p : path) (raised : option string)
| MadeDirs (dir : list string) (raised : option string)
| MadeOptions (raised : option string)
| Pprinted (p : path) (ast : value) (raised : option string)
| Printed (items : list (string * json)).

(** What [except Exception as e] of [decompile_file] can catch: an exception
    of [read_ast_from_file], or one raised by a call into the operating
    system or the vendored decompiler. *)
Inductive py_exn : Type :=
| Reader (e : exn)
| External (msg : string).

Inductive outcome (A : Type) : Type :=
| Done (a : A)
| Failed (e : py_exn).
Arguments Done {A} a.
Arguments Failed {A} e.

(** The dictionary [result] of [decompile_file]; the key ["error"] is
    present when [error] is [Some _]. *)
Record result : Type := mk_result {
  input : string;
  output : string;
  success : bool;
  error : option string
}.

(** How the script ends: [sys.exit(code)], or the [ValueError] of
    [with_suffix], which nothing catches. *)
Inductive ending : Type :=
| SysExit (code : nat)
| Uncaught (p : path).

(** The exit status the interpreter reports. *)
Definition exit_status (e : ending) : nat :=
  match e with
  | SysExit code => code
  | Uncaught _ => 1%nat
  end.

Section Bridge.
(** The state of the operating system, and the calls the script makes: each
    takes the state and gives the new state and what the call returned or
    raised.  [Path] is the constructor of [pathlib.Path], [str_path] its
    [str()], [str_exn] the [str()] of the exceptions of [struct] and [zlib]
    and of the deserializer. *)
Context {W : Type}.
Variable zlib_decompress : bytes -> res bytes.
Variable pickle_safe_loads : bytes -> res (value * value).
Variable bo : byteorder.
Variable os_open : path -> string -> W -> W * option string.
Variable os_read : path -> W -> W * (string + bytes).
Variable os_close : path -> W -> W * option string.
Variable os_mkdir : list string -> W -> W * option string.
Variable new_options : W -> W * option string.
Variable decompiler_pprint : path -> value -> W -> W * option string.
Variable Path : string -> path.
Variable str_path : path -> string.
Variable str_exn : exn -> string.

(** The state of a run: the operating system and the calls made so far. *)
Record run : Type := mk_run {
  world : W;
  history : list event
}.

Definition io (A : Type) : Type := run -> run * outcome A.

Definition io_bind {A B} (m : io A) (k : A -> io B) : io B := fun s =>
  match m s with
  | (s', Done a) => k a s'
  | (s', Failed e) => (s', Failed e)
  end.

Definition raised (r : option string) : outcome unit :=
  match r with
  | Some msg => Failed (External msg)
  | None => Done tt
  end.

Definition call_open (p : path) (mode : string) : io unit := fun s =>
  let '(w, r) := os_open p mode (world s) in
  (mk_run w (history s ++ [Opened p mode r]), raised r).

Definition call_read (p : path) : io bytes := fun s =>
  let '(w, r) := os_read p (world s) in
  (mk_run w (history s ++ [ReadAll p r]),
   match r with
   | inl msg => Failed (External msg)
   | inr raw => Done raw
   end).

Definition call_close (p : path) : io unit := fun s =>
  let '(w, r) := os_close p (world s) in
  (mk_run w (history s ++ [Closed p r]), raised r).

Definition call_mkdir (dir : list string) : io unit := fun s =>
  let '(w, r) := os_mkdir dir (world s) in
  (mk_run w (history s ++ [MadeDirs dir r]), raised r).

Definition call_options : io unit := fun s =>
  let '(w, r) := new_options (world s) in
  (mk_run w (history s ++ [MadeOptions r]), raised r).

Definition call_pprint (p : path) (ast : value) : io unit := fun s =>
  let '(w, r) := decompiler_pprint p ast (world s) in
  (mk_run w (history s ++ [Pprinted p ast r]), raised r).

Definition call_print (items : list (string * json)) (s : run) : run :=
  mk_run (world s) (history s ++ [Printed items]).

(** [with open(p, mode) as f: body]: the file is closed when the body is
    left, normally or by an exception; an exception of [close] is the one
    that goes on. *)
Definition with_open {A} (p : path) (mode : string) (body : io A) : io A := fun s =>
  match call_open p mode s with
  | (s1, Failed e) => (s1, Failed e)
  | (s1, Done _) =>
      let '(s2, r) := body s1 in
      match call_close p s2 with
      | (s3, Failed e) => (s3, Failed e)
      | (s3, Done _) => (s3, r)
      end
  end.

(** Line 28 and the rest of [read_ast_from_file] on an open file. *)
Definition read_ast (p : path) : io value :=
  io_bind (call_read p) (fun raw_contents s =>
    (s, match read_ast_from_file zlib_decompress pickle_safe_loads bo raw_contents with
        | Return stmts => Done stmts
        | Raise e => Failed (Reader e)
        end)).

(** Lines 64-71, the body of the [try]. *)
Definition decompile_steps (input_path output_path : path) : io unit :=
  io_bind (with_open input_path "rb" (read_ast input_path)) (fun ast =>
  io_bind (call_mkdir (parent output_path)) (fun _ =>
  with_open output_path "w"
    (io_bind call_options (fun _ => call_pprint output_path ast)))).

(** [str(e)] in the handler. *)
Definition str_exception (e : py_exn) : string :=
  match e with
  | Reader (ValueError msg) => msg
  | Reader e => str_exn e
  | External msg => msg
  end.

(** Lines 59-78. *)
Definition decompile_file (input_path output_path : path) (s : run) : run * result :=
  match decompile_steps input_path output_path s with
  | (s', Done _) =>
      (s', mk_result (str_path input_path) (str_path output_path) true None)
  | (s', Failed e) =>
      (s', mk_result (str_path input_path) (str_path output_path) false
             (Some (str_exception e)))
  end.

(** The items of [result] as [json.dumps] sees them. *)
Definition result_items (r : result) : list (string * json) :=
  [("input", JString (input r)); ("output", JString (output r));
   ("success", JBool (success r))]
  ++ match error r with
     | Some msg => [("error", JString msg)]
     | None => []
     end.

Definition usage : string := "Usage: decompile.py <input> [output]".

(** Lines 81-101; [argv] is [sys.argv], the name of the script first. *)
Definition main (argv : list string) (s : run) : run * ending :=
  match argv with
  | [] | [_] => (call_print [("error", JString usage)] s, SysExit 1)
  | _ :: arg1 :: rest =>
      let input_path := Path arg1 in
      let chosen :=
        match rest with
        | arg2 :: _ => Some (Path arg2)
        | [] => default_output input_path
        end in
      match chosen with
      | None => (s, Uncaught input_path)
      | Some output_path =>
          let '(s', r) := decompile_file input_path output_path s in
          (call_print (result_items r) s',
           SysExit (if success r then 0 else 1))
      end
  end.

(** Lines 16-23 and 104-105: the imports, then [main]. *)
Definition script (import_error : option string) (argv : list string)
    (s : run) : run * ending :=
  match import_error with
  | Some msg =>
      (call_print [("error", JString ("Failed to import unrpyc: " +:+ msg))] s,
       SysExit 1)
  | None => main argv s
  end.
End Bridge.

(** ** Reading a history *)

#[global] Instance path_eq_dec : EqDecision path.
Proof. solve_decision. Defined.

(** The files opened and not closed again, latest first: an [open] that
    returned adds its file, a [close] of the latest file removes it. *)
Definition track_open (opened : list path) (e : event) : list path :=
  match e with
  | Opened p _ None => p :: opened
  | Closed p _ =>
      match opened with
      | q :: rest => if decide (p = q) then rest else opened
      | [] => []
      end
  | _ => opened
  end.

Definition still_open (events : list event) : list path :=
  fold_left track_open events [].

(** The calls that touch the output: making directories, opening for
    writing, pretty-printing. *)
Definition writes (e : event) : bool :=
  match e with
  | MadeDirs _ _ | Pprinted _ _ _ | MadeOptions _ => true
  | Opened _ mode _ => String.eqb mode "w"
  | _ => false
  end.

Definition is_print (e : event) : bool :=
  match e with
  | Printed _ => true
  | _ => false
  end.

(** ** A small operating system for the examples *)

Module BridgeExamples.

(** Files by name; directories always exist, nothing but a missing input
    fails, and the pretty-printer writes one byte per run. *)
Definition files : Type := gmap string bytes.

Definition os_open (p : path) (mode : string) (w : files) : files * option string :=
  if String.eqb mode "w" then (<[name p := []]> w, None)
  else match w !! name p with
       | Some _ => (w, None)
       | None => (w, Some "No such file or directory"%string)
       end.

Definition os_read (p : path) (w : files) : files * (string + bytes) :=
  match w !! name p with
  | Some content => (w, inr content)
  | None => (w, inl "I/O operation on closed file"%string)
  end.

Definition os_close (p : path) (w : files) : files * option string := (w, None).

Definition os_mkdir (dir : list string) (w : files) : files * option string :=
  (w, None).

Definition new_options (w : files) : files * option string := (w, None).

Definition decompiler_pprint (p : path) (ast : value) (w : files) :
    files * option string :=
  (<[name p := [x0a]]> w, None).

Definition Path (arg : string) : path := mk_path [] arg.

Definition str_path (p : path) : string := name p.

Definition str_exn (e : exn) : string := "error"%string.

(** A disk that holds the archive without a data slot. *)
Definition disk : files := {[ "bad.rpyc"%string := Examples.no_slot_1 ]}.

Definition start_of_run : run := mk_run disk [].

End BridgeExamples.

(** * Properties *)

(** ** Slices *)

Lemma take_N_take {A} (l : list A) (n : N) : take_N n l = take (N.to_nat n) l.
Proof.
  revert n; induction l as [|x l IH]; intros n; simpl.
  - by destruct (N.to_nat n).
  - destruct (N.eqb_spec n 0) as [->|Hn]; [done|].
    replace (N.to_nat n) with (S (N.to_nat (N.pred n))) by lia.
    simpl. by rewrite IH.
Qed.

Lemma drop_N_drop {A} (l : list A) (n : N) : drop_N n l = drop (N.to_nat n) l.
Proof.
  revert n; induction l as [|x l IH]; intros n; simpl.
  - by destruct (N.to_nat n).
  - destruct (N.eqb_spec n 0) as [->|Hn]; [done|].
    replace (N.to_nat n) with (S (N.to_nat (N.pred n))) by lia.
    simpl. by rewrite IH.
Qed.

Lemma slice_take_drop {A} (l : list A) (lo hi : N) :
  slice l lo hi = take (N.to_nat (hi - lo)) (drop (N.to_nat lo) l).
Proof. unfold slice. by rewrite take_N_take, drop_N_drop. Qed.

(** A slice is never longer than asked for and never reaches past the end of
    the buffer. *)
Lemma length_slice {A} (l : list A) (lo hi : N) :
  length (slice l lo hi) = (N.to_nat (hi - lo) `min` (length l - N.to_nat lo))%nat.
Proof. rewrite slice_take_drop, length_take, length_drop. lia. Qed.

(** The slice that starts after [pre] and is as long as [mid] is [mid]. *)
Lemma slice_app_middle {A} (pre mid post : list A) (lo hi : N) :
  lo = N.of_nat (length pre) ->
  hi = lo + N.of_nat (length mid) ->
  slice (pre ++ mid ++ post) lo hi = mid.
Proof.
  intros -> ->. rewrite slice_take_drop.
  replace (N.of_nat (length pre) + N.of_nat (length mid) - N.of_nat (length pre))
    with (N.of_nat (length mid)) by lia.
  rewrite !Nat2N.id, drop_app_length, take_app_length. done.
Qed.

Lemma slice_app_end {A} (pre mid : list A) (lo hi : N) :
  lo = N.of_nat (length pre) ->
  hi = lo + N.of_nat (length mid) ->
  slice (pre ++ mid) lo hi = mid.
Proof.
  intros Hlo Hhi. rewrite <- (app_nil_r mid) at 1. by apply slice_app_middle.
Qed.

(** Cutting the buffer after the end of a slice does not change the slice. *)
Lemma slice_take {A} (l : list A) (t : nat) (lo hi : N) :
  (N.to_nat hi <= t)%nat -> slice (take t l) lo hi = slice l lo hi.
Proof.
  intros Hhi. rewrite !slice_take_drop.
  destruct (decide (lo <= hi)) as [Hle|Hgt].
  - rewrite !take_drop_commute, take_take. do 2 f_equal. lia.
  - replace (N.to_nat (hi - lo)) with 0%nat by lia. done.
Qed.

(** ** The marker *)

Lemma startswith_app (raw pre : bytes) :
  startswith raw pre = true <-> exists rest, raw = pre ++ rest.
Proof.
  revert raw; induction pre as [|p pre IH]; intros [|b raw]; simpl;
    try (split; [by eexists|done]).
  - split; [done|]. by intros [rest ?].
  - destruct (Byte.eqb b p) eqn:Hbp.
    + apply Byte.byte_dec_bl in Hbp as ->. split.
      * intros [rest ->]%IH. by exists rest.
      * intros [rest Hrest]. apply IH. exists rest. by simplify_eq.
    + split; [done|]. intros [rest Hrest]. simplify_eq.
      by rewrite Byte.byte_dec_lb in Hbp.
Qed.

Lemma startswith_length (raw pre : bytes) :
  startswith raw pre = true -> (length pre <= length raw)%nat.
Proof.
  intros [rest ->]%startswith_app. rewrite length_app. lia.
Qed.

Lemma startswith_take (raw pre : bytes) (t : nat) :
  startswith raw pre = true -> (length pre <= t)%nat ->
  startswith (take t raw) pre = true.
Proof.
  intros [rest ->]%startswith_app Ht. apply startswith_app.
  exists (take (t - length pre) rest).
  rewrite take_app. f_equal. apply take_ge. lia.
Qed.

(** ** Index records *)

Lemma unpack_III_length (bo : byteorder) (buf : bytes) :
  is_Some (unpack_III bo buf) <-> length buf = 12%nat.
Proof.
  split.
  - intros [r Hr]. do 13 (destruct buf as [|? buf]; try done).
  - intros Hlen. do 12 (destruct buf as [|? buf]; try done).
    destruct buf; [by eexists|done].
Qed.

Lemma unpack_III_None (bo : byteorder) (buf : bytes) :
  length buf ≠ 12%nat -> unpack_III bo buf = None.
Proof.
  intros Hlen. apply eq_None_not_Some. by rewrite unpack_III_length.
Qed.

Lemma length_pack_III (bo : byteorder) (r : N * N * N) :
  length (pack_III bo r) = 12%nat.
Proof. by destruct r as [[??]?], bo. Qed.

Lemma to_N_byte_of_N (n : N) : Byte.to_N (byte_of_N n) = n mod 256.
Proof.
  unfold byte_of_N. destruct (Byte.of_N (n mod 256)) as [b|] eqn:Hb.
  - by apply Byte.to_of_N.
  - apply Byte.of_N_None_iff in Hb.
    pose proof (N.mod_upper_bound n 256). lia.
Qed.

(** The value of a little-endian word, digit by digit. *)
Lemma uint32_le_digits (b0 b1 b2 b3 : byte) :
  uint32_le b0 b1 b2 b3 =
    Byte.to_N b0 + 256 * Byte.to_N b1 + 65536 * Byte.to_N b2
    + 16777216 * Byte.to_N b3.
Proof. unfold uint32_le. rewrite !N.shiftl_mul_pow2. simpl (2 ^ _). lia. Qed.

Lemma uint32_le_bound (b0 b1 b2 b3 : byte) : uint32_le b0 b1 b2 b3 < 2 ^ 32.
Proof.
  rewrite uint32_le_digits.
  pose proof (Byte.to_N_bounded b0). pose proof (Byte.to_N_bounded b1).
  pose proof (Byte.to_N_bounded b2). pose proof (Byte.to_N_bounded b3).
  simpl (2 ^ _). lia.
Qed.

Lemma uint32_le_of_N (n : N) :
  n < 2 ^ 32 ->
  uint32_le (byte_of_N n) (byte_of_N (N.shiftr n 8))
            (byte_of_N (N.shiftr n 16)) (byte_of_N (N.shiftr n 24)) = n.
Proof.
  intros Hn. rewrite uint32_le_digits, !to_N_byte_of_N.
  replace (N.shiftr n 24) with (N.shiftr (N.shiftr (N.shiftr n 8) 8) 8)
    by (by rewrite !N.shiftr_shiftr).
  replace (N.shiftr n 16) with (N.shiftr (N.shiftr n 8) 8)
    by (by rewrite !N.shiftr_shiftr).
  rewrite !N.shiftr_div_pow2. change (2 ^ 8) with 256.
  change (2 ^ 32) with 4294967296 in Hn.
  pose proof (N.div_mod n 256 ltac:(lia)).
  pose proof (N.div_mod (n / 256) 256 ltac:(lia)).
  pose proof (N.div_mod (n / 256 / 256) 256 ltac:(lia)).
  pose proof (N.mod_upper_bound n 256 ltac:(lia)).
  pose proof (N.mod_upper_bound (n / 256) 256 ltac:(lia)).
  pose proof (N.mod_upper_bound (n / 256 / 256) 256 ltac:(lia)).
  assert (n / 256 / 256 / 256 < 256)
    by (repeat apply N.Div0.div_lt_upper_bound; lia).
  rewrite (N.mod_small (n / 256 / 256 / 256)) by lia.
  lia.
Qed.

Lemma unpack_pack_I (bo : byteorder) (n : N) :
  n < 2 ^ 32 ->
  match pack_I bo n with
  | [b0; b1; b2; b3] => unpack_I bo b0 b1 b2 b3 = n
  | _ => False
  end.
Proof. intros Hn. destruct bo; simpl; by apply uint32_le_of_N. Qed.

(** [struct.unpack] undoes [struct.pack] on the same host. *)
Lemma unpack_pack_III (bo : byteorder) (slot start len : N) :
  slot < 2 ^ 32 -> start < 2 ^ 32 -> len < 2 ^ 32 ->
  unpack_III bo (pack_III bo (slot, start, len)) = Some (slot, start, len).
Proof.
  intros H1 H2 H3.
  pose proof (unpack_pack_I bo _ H1) as E1.
  pose proof (unpack_pack_I bo _ H2) as E2.
  pose proof (unpack_pack_I bo _ H3) as E3.
  destruct bo; simpl in *; by rewrite E1, E2, E3.
Qed.

(** ** Loops *)

Section LoopFacts.
Context {S : Type}.
Variable body : N -> S -> flow S.

Lemma for_nat_add (a b : nat) (i : N) (s : S) :
  for_nat body (a + b) i s =
    match for_nat body a i s with
    | Continue s' => for_nat body b (i + N.of_nat a) s'
    | r => r
    end.
Proof.
  revert i s; induction a as [|a IH]; intros i s.
  - simpl. by rewrite N.add_0_r.
  - cbn [for_nat Nat.add]. destruct (body i s) as [s'| |]; [|done..].
    rewrite IH. destruct (for_nat body a (i + 1) s'); [|done..].
    f_equal. lia.
Qed.

Lemma for_pos_nat (p : positive) (i : N) (s : S) :
  for_pos body p i s = for_nat body (Pos.to_nat p) i s.
Proof.
  revert i s; induction p as [q IH|q IH|]; intros i s.
  - rewrite Pos2Nat.inj_xI.
    replace (Datatypes.S (2 * Pos.to_nat q)) with (1 + (Pos.to_nat q + Pos.to_nat q))%nat by lia.
    cbn [for_pos]. rewrite (for_nat_add 1). cbn [for_nat].
    destruct (body i s) as [s'| |]; [|reflexivity..].
    change (i + N.of_nat 1) with (i + 1).
    rewrite for_nat_add, !IH.
    destruct (for_nat body (Pos.to_nat q) (i + 1) s'); [|reflexivity..].
    by rewrite positive_nat_N.
  - rewrite Pos2Nat.inj_xO.
    replace (2 * Pos.to_nat q)%nat with (Pos.to_nat q + Pos.to_nat q)%nat by lia.
    cbn [for_pos]. rewrite for_nat_add, !IH.
    destruct (for_nat body (Pos.to_nat q) i s); [|reflexivity..].
    by rewrite positive_nat_N.
  - change (Pos.to_nat 1) with 1%nat. cbn [for_pos for_nat].
    by destruct (body i s).
Qed.

(** Once an iteration has left the loop, later indices are never run. *)
Lemma for_nat_stop (n m : nat) (i : N) (s : S) :
  (n <= m)%nat ->
  (forall s', for_nat body n i s ≠ Continue s') ->
  for_nat body m i s = for_nat body n i s.
Proof.
  intros Hnm Hstop. replace m with (n + (m - n))%nat by lia.
  rewrite for_nat_add. destruct (for_nat body n i s) as [s'| |]; [|done..].
  by destruct (Hstop s').
Qed.
End LoopFacts.

Lemma scan_for_nat (bo : byteorder) (raw : bytes) :
  scan bo raw = for_nat (scan_body bo raw) (Pos.to_nat scan_limit) 1 (mk_scan 10 ∅).
Proof. unfold scan, for_range. apply for_pos_nat. Qed.

(** ** What the scan computes *)

Lemma scan_body_offset (bo : byteorder) (raw : bytes) (i : N) (k : nat)
    (ch : gmap N bytes) :
  scan_body bo raw i (mk_scan (offset k) ch) =
    match record_at bo raw k with
    | None => Throw struct_error
    | Some r =>
        if r.1.1 =? 0 then Break (mk_scan (offset k) ch)
        else Continue (mk_scan (offset (S k)) (store raw ch r))
    end.
Proof.
  unfold scan_body, record_at, offset; cbn [position chunks].
  destruct (unpack_III _ _) as [[[slot start] len]|]; [|done].
  cbn [fst snd]. destruct (slot =? 0); [done|].
  unfold store; cbn [fst snd]. do 2 f_equal. lia.
Qed.

(** Records with a non-zero slot are stored one after the other, twelve
    bytes apart. *)
Lemma for_nat_records (bo : byteorder) (raw : bytes) (recs : list (N * N * N)) :
  forall (k : nat) (i : N) (ch : gmap N bytes),
  records_from bo raw k recs ->
  for_nat (scan_body bo raw) (length recs) i (mk_scan (offset k) ch) =
    Continue (mk_scan (offset (k + length recs)) (fold_left (store raw) recs ch)).
Proof.
  induction recs as [|r recs IH]; intros k i ch Hrecs.
  - cbn. by rewrite Nat.add_0_r.
  - destruct Hrecs as (Hr & Hslot & Hrecs).
    cbn [for_nat length fold_left]. rewrite scan_body_offset, Hr.
    apply N.eqb_neq in Hslot as ->. rewrite (IH _ _ _ Hrecs).
    do 3 f_equal. lia.
Qed.

Section ScanCases.
Context (bo : byteorder) (raw : bytes) (recs : list (N * N * N)).
Hypothesis Hrecs : records_from bo raw 0 recs.

Lemma scan_prefix (n : nat) :
  (length recs <= n)%nat ->
  for_nat (scan_body bo raw) n 1 (mk_scan 10 ∅) =
    for_nat (scan_body bo raw) (n - length recs) (1 + N.of_nat (length recs))
      (mk_scan (offset (length recs)) (store_all raw recs)).
Proof.
  intros Hn. replace n with (length recs + (n - length recs))%nat at 1 by lia.
  rewrite for_nat_add.
  by rewrite (for_nat_records bo raw recs 0 1 ∅ Hrecs).
Qed.

(** A record that is not complete ends the scan with [struct.error]. *)
Lemma scan_truncated :
  in_range recs ->
  record_at bo raw (length recs) = None ->
  scan bo raw = Throw struct_error.
Proof.
  intros Hlim Hnone. unfold in_range in Hlim.
  rewrite scan_for_nat, scan_prefix by lia.
  destruct (Pos.to_nat scan_limit - length recs)%nat as [|m] eqn:Hm; [lia|].
  cbn [for_nat]. by rewrite scan_body_offset, Hnone.
Qed.

(** A record with slot zero ends the scan with the chunks stored so far. *)
Lemma scan_terminated (start len : N) :
  in_range recs ->
  record_at bo raw (length recs) = Some (0, start, len) ->
  scan bo raw = Break (mk_scan (offset (length recs)) (store_all raw recs)).
Proof.
  intros Hlim Hzero. unfold in_range in Hlim.
  rewrite scan_for_nat, scan_prefix by lia.
  destruct (Pos.to_nat scan_limit - length recs)%nat as [|m] eqn:Hm; [lia|].
  cbn [for_nat]. by rewrite scan_body_offset, Hzero.
Qed.

(** The range runs out after [scan_limit] records. *)
Lemma scan_exhausted :
  N.of_nat (length recs) = N.pos scan_limit ->
  scan bo raw = Continue (mk_scan (offset (length recs)) (store_all raw recs)).
Proof.
  intros Hlim. rewrite scan_for_nat, scan_prefix by lia.
  by replace (Pos.to_nat scan_limit - length recs)%nat with 0%nat by lia.
Qed.
End ScanCases.

(** ** Records and the end of the buffer *)

Lemma offset_nat (k : nat) : N.to_nat (offset k) = (10 + 12 * k)%nat.
Proof. unfold offset. lia. Qed.

Lemma length_record_slice (raw : bytes) (k : nat) :
  length (slice raw (offset k) (offset k + 12)) =
    (12 `min` (length raw - (10 + 12 * k)))%nat.
Proof.
  rewrite length_slice, offset_nat.
  replace (N.to_nat (offset k + 12 - offset k)) with 12%nat by lia. done.
Qed.

(** Fewer than twelve bytes at the place of a record: [struct.error]. *)
Lemma record_at_short (bo : byteorder) (raw : bytes) (k : nat) :
  (length raw < 10 + 12 * k + 12)%nat -> record_at bo raw k = None.
Proof.
  intros Hlen. apply unpack_III_None. rewrite length_record_slice. lia.
Qed.

(** A record that was decoded lies inside the buffer. *)
Lemma record_at_inside (bo : byteorder) (raw : bytes) (k : nat) (r : N * N * N) :
  record_at bo raw k = Some r -> (10 + 12 * k + 12 <= length raw)%nat.
Proof.
  intros Hr. assert (is_Some (record_at bo raw k)) as Hsome by eauto.
  apply unpack_III_length in Hsome. rewrite length_record_slice in Hsome. lia.
Qed.

Lemma record_at_take (bo : byteorder) (raw : bytes) (t k : nat) :
  (10 + 12 * k + 12 <= t)%nat -> record_at bo (take t raw) k = record_at bo raw k.
Proof.
  intros Ht. unfold record_at. rewrite slice_take; [done|].
  pose proof (offset_nat k). lia.
Qed.

(** Records that end in front of a cut are still there after it. *)
Lemma records_from_take (bo : byteorder) (raw : bytes) (t : nat)
    (recs : list (N * N * N)) :
  forall (k m : nat),
  records_from bo raw k recs ->
  (10 + 12 * (k + m) <= t)%nat ->
  records_from bo (take t raw) k (take m recs).
Proof.
  induction recs as [|r recs IH]; intros k m Hrecs Ht.
  - by destruct m.
  - destruct m as [|m]; [done|]. destruct Hrecs as (Hr & Hslot & Hrecs).
    cbn [take records_from]. split_and!; [|done|].
    + rewrite record_at_take; [done|lia].
    + apply IH; [done|lia].
Qed.

(** ** The chunks dictionary *)

(** A slot that no record names is not in the dictionary. *)
Lemma lookup_fold_store_absent (raw : bytes) (recs : list (N * N * N))
    (ch : gmap N bytes) (slot : N) :
  Forall (fun r => r.1.1 ≠ slot) recs ->
  fold_left (store raw) recs ch !! slot = ch !! slot.
Proof.
  revert ch; induction recs as [|r recs IH]; intros ch Hall; [done|].
  apply Forall_cons in Hall as [Hr Hall]. cbn [fold_left].
  rewrite IH by done. unfold store. by rewrite lookup_insert_ne.
Qed.

(** The last record that names a slot decides its chunk. *)
Lemma lookup_fold_store_last (raw : bytes) (pre post : list (N * N * N))
    (ch : gmap N bytes) (slot start len : N) :
  Forall (fun r => r.1.1 ≠ slot) post ->
  fold_left (store raw) (pre ++ (slot, start, len) :: post) ch !! slot =
    Some (slice raw start (start + len)).
Proof.
  intros Hpost. rewrite fold_left_app. cbn [fold_left].
  rewrite lookup_fold_store_absent by done.
  unfold store at 1; cbn [fst snd]. by rewrite lookup_insert_eq.
Qed.

(** ** The reader on indexed archives *)

Lemma read_payload_legacy (bo : byteorder) (raw : bytes) :
  startswith raw magic = false -> read_payload bo raw = Return raw.
Proof. intros Hmagic. unfold read_payload. by rewrite Hmagic. Qed.

Lemma read_payload_indexed (bo : byteorder) (raw : bytes) :
  startswith raw magic = true ->
  read_payload bo raw =
    match scan bo raw with
    | Throw e => Raise e
    | Continue st | Break st =>
        match chunks st !! 1 with
        | None => Raise (ValueError no_data_slot)
        | Some contents => Return contents
        end
    end.
Proof. intros Hmagic. unfold read_payload. by rewrite Hmagic. Qed.

Lemma read_payload_truncated (bo : byteorder) (raw : bytes)
    (recs : list (N * N * N)) :
  startswith raw magic = true ->
  records_from bo raw 0 recs ->
  in_range recs ->
  (length raw < 10 + 12 * length recs + 12)%nat ->
  read_payload bo raw = Raise struct_error.
Proof.
  intros Hmagic Hrecs Hlim Hlen.
  rewrite read_payload_indexed, (scan_truncated bo raw recs); try done.
  by apply record_at_short.
Qed.

Lemma read_payload_terminated (bo : byteorder) (raw : bytes)
    (recs : list (N * N * N)) :
  startswith raw magic = true ->
  terminated_index bo raw recs ->
  read_payload bo raw =
    match store_all raw recs !! 1 with
    | None => Raise (ValueError no_data_slot)
    | Some contents => Return contents
    end.
Proof.
  intros Hmagic (Hrecs & Hlim & start & len & Hzero).
  by rewrite read_payload_indexed, (scan_terminated bo raw recs Hrecs start len).
Qed.

(** ** Archives built from a list of records *)

Lemma length_packed (bo : byteorder) (recs : list (N * N * N)) :
  length (concat (pack_III bo <$> recs)) = (12 * length recs)%nat.
Proof.
  induction recs as [|r recs IH]; [done|].
  cbn [fmap list_fmap concat length]. rewrite length_app, length_pack_III, IH. lia.
Qed.

Lemma record_at_packed (bo : byteorder) (seen : list (N * N * N))
    (r : N * N * N) (rest : bytes) :
  uint32_record r ->
  record_at bo (magic ++ concat (pack_III bo <$> seen) ++ pack_III bo r ++ rest)
    (length seen) = Some r.
Proof.
  intros (H1 & H2 & H3). unfold record_at.
  rewrite (app_assoc magic), slice_app_middle.
  - destruct r as [[slot start] len]. by apply unpack_pack_III.
  - rewrite length_app, length_packed. unfold offset, magic. cbn [length]. lia.
  - rewrite length_pack_III. lia.
Qed.

Lemma records_from_packed (bo : byteorder) (recs : list (N * N * N)) (rest : bytes) :
  forall seen : list (N * N * N),
  Forall uint32_record recs ->
  Forall (fun r => r.1.1 ≠ 0) recs ->
  records_from bo (magic ++ concat (pack_III bo <$> (seen ++ recs)) ++ rest)
    (length seen) recs.
Proof.
  induction recs as [|r recs IH]; intros seen Hwf Hslots; [done|].
  apply Forall_cons in Hwf as [Hr Hwf]. apply Forall_cons in Hslots as [Hs Hslots].
  cbn [records_from]. split_and!; [|done|].
  - rewrite fmap_app, concat_app, fmap_cons. cbn [concat].
    rewrite <- !(app_assoc _ _ rest). by apply record_at_packed.
  - specialize (IH (seen ++ [r]) Hwf Hslots).
    rewrite <- app_assoc, length_app, Nat.add_1_r in IH. done.
Qed.

(** Every list of well-formed records with non-zero slots, short enough for
    the loop, is the index of the archive built from it. *)
Lemma terminated_index_archive (bo : byteorder) (recs : list (N * N * N))
    (body : bytes) :
  Forall uint32_record recs ->
  Forall (fun r => r.1.1 ≠ 0) recs ->
  in_range recs ->
  terminated_index bo (indexed_archive bo recs body) recs.
Proof.
  intros Hwf Hslots Hlim. unfold indexed_archive. split_and!; [|done|].
  - apply (records_from_packed bo recs _ [] Hwf Hslots).
  - exists 0, 0. apply record_at_packed. by compute.
Qed.

Lemma startswith_archive (bo : byteorder) (recs : list (N * N * N)) (body : bytes) :
  startswith (indexed_archive bo recs body) magic = true.
Proof. apply startswith_app. by eexists. Qed.

(** ** How far the scan can get *)

Section ScanBound.
Context (bo : byteorder) (raw : bytes).

(** After [m] passes that all fell through, [position] is past [m] complete
    records of the buffer. *)
Lemma for_nat_scan_position (m : nat) (st : scan_state) :
  for_nat (scan_body bo raw) m 1 (mk_scan 10 ∅) = Continue st ->
  position st = offset m /\ (m = 0 \/ 10 + 12 * m <= length raw)%nat.
Proof.
  revert st; induction m as [|m IH]; intros st.
  - cbn. intros [= <-]. eauto.
  - replace (S m) with (m + 1)%nat by lia. rewrite for_nat_add.
    destruct (for_nat _ m _ _) as [[pos ch]| |]; [|done..].
    destruct (IH _ eq_refl) as [Hpos _]. cbn [position] in Hpos. subst pos.
    cbn [for_nat]. rewrite scan_body_offset.
    destruct (record_at bo raw m) as [r|] eqn:Hr; [|done].
    apply record_at_inside in Hr. destruct (r.1.1 =? 0); [done|].
    intros [= <-]. cbn [position]. split; [unfold offset; lia|]. right. lia.
Qed.

(** The loop never needs more passes than the buffer has room for records,
    plus the one that finds the buffer too short. *)
Lemma for_nat_scan_bounded (m : nat) :
  exists n : nat,
    (n <= m)%nat /\ (n <= length raw / 12 + 1)%nat /\
    for_nat (scan_body bo raw) m 1 (mk_scan 10 ∅) =
      for_nat (scan_body bo raw) n 1 (mk_scan 10 ∅).
Proof.
  induction m as [|m (n & Hnm & Hn & Heq)].
  - exists 0%nat. split_and!; [lia..|done].
  - destruct (for_nat (scan_body bo raw) m 1 (mk_scan 10 ∅)) as [st| |] eqn:Hm.
    + exists (S m). split_and!; [lia| |done].
      apply for_nat_scan_position in Hm as [_ Hroom].
      assert (m <= length raw / 12)%nat; [|lia].
      apply Nat.div_le_lower_bound; lia.
    + exists n. split_and!; [lia|done|]. rewrite <- Heq, <- Hm.
      apply for_nat_stop; [lia|]. by rewrite Hm.
    + exists n. split_and!; [lia|done|]. rewrite <- Heq, <- Hm.
      apply for_nat_stop; [lia|]. by rewrite Hm.
Qed.

(** Without a zero-slot record the loop never takes its [break]. *)
Lemma for_nat_scan_no_sentinel (m : nat) :
  no_sentinel bo raw ->
  (exists st, for_nat (scan_body bo raw) m 1 (mk_scan 10 ∅) = Continue st) \/
  for_nat (scan_body bo raw) m 1 (mk_scan 10 ∅) = Throw struct_error.
Proof.
  intros Hfree. induction m as [|m IH]; [left; by eexists|].
  replace (S m) with (m + 1)%nat by lia. rewrite for_nat_add.
  destruct IH as [[[pos ch] Hm]| ->]; [|by right].
  rewrite Hm. apply for_nat_scan_position in Hm as [Hpos _].
  cbn [position] in Hpos. subst pos. cbn [for_nat]. rewrite scan_body_offset.
  destruct (record_at bo raw m) as [[[slot start] len]|] eqn:Hr; [|by right].
  cbn [fst snd]. destruct (N.eqb_spec slot 0) as [->|Hslot].
  - by destruct (Hfree m start len).
  - left. by eexists.
Qed.

Lemma scan_no_sentinel :
  no_sentinel bo raw ->
  N.of_nat (length raw) < offset (Pos.to_nat scan_limit) ->
  scan bo raw = Throw struct_error.
Proof.
  intros Hfree Hlen. rewrite scan_for_nat.
  destruct (for_nat_scan_no_sentinel (Pos.to_nat scan_limit) Hfree)
    as [[st Hst]|Hthrow]; [|done].
  apply for_nat_scan_position in Hst as [_ Hroom].
  pose proof (offset_nat (Pos.to_nat scan_limit)). lia.
Qed.
End ScanBound.

(** ** The deserializer *)

Lemma run_exec (allow : gmap string SafeLoads.recipe)
    (pre rest : list SafeLoads.opcode) (st0 st : SafeLoads.state) :
  SafeLoads.exec allow pre st0 = Return st ->
  SafeLoads.run allow (pre ++ rest) st0 = SafeLoads.run allow rest st.
Proof.
  revert st0; induction pre as [|op pre IH]; intros st0; cbn.
  - by intros [= ->].
  - destruct op; try done;
      (destruct (SafeLoads.step allow _ st0) as [st1|]; [apply IH|done]).
Qed.

(** ** Running the reader *)

Example read_wrapped_bytes :
  read_payload little (wrap little [x01; x02]) = Return [x01; x02].
Proof. by vm_compute. Qed.

Example read_legacy_bytes : read_payload little [x78; x9c] = Return [x78; x9c].
Proof. by vm_compute. Qed.

(** An archive written on a little-endian host and read on a big-endian one:
    the slot of its record is read as 16777216, and slot 1 is not found. *)
Example read_on_other_host :
  read_payload big (wrap little [x01; x02]) = Raise (ValueError no_data_slot).
Proof. by vm_compute. Qed.

Example read_real_pair :
  read_ast_from_file Examples.inflate_stored Examples.safe_loads little
    (wrap little Examples.compressed_pair) = Return (VSeq []).
Proof. by vm_compute. Qed.

Example load_listed_type :
  SafeLoads.deserialize Examples.allow_list
    [SafeLoads.PushNone; SafeLoads.PushStr "renpy.ast.Return";
     SafeLoads.BuildRecord 0; SafeLoads.Construct; SafeLoads.BuildRecord 2;
     SafeLoads.Stop] = Return (VNone, VObj "renpy.ast.Return" []).
Proof. by vm_compute. Qed.

(** * The claims *)

(** The index of a concrete archive, read off by running the decoder. *)
Ltac index_by_computation :=
  split_and!;
  [ vm_compute; split_and!; done
  | by vm_compute
  | exists 0, 0; by vm_compute ].

(** ** Bounds of the slot-1 payload *)

(** C2, as stated, fails: the slot-1 record of [short_archive] declares the
    bytes 34 to 134 of an archive of 37 bytes, and the reader returns the
    three bytes that are there instead of failing. *)
Lemma short_archive_not_rejected :
  N.of_nat (length Examples.short_archive) < 34 + 100 /\
  read_payload little Examples.short_archive = Return [x01; x02; x03].
Proof. split; [by vm_compute|by vm_compute]. Qed.

(** C2, amended: when the last slot-1 record of an indexed archive has
    [start + length] beyond the end of the archive, extracting the payload
    does not fail; it returns the bytes from [start] to the end of the archive
    (none when [start] lies beyond the end), never more than declared and
    fewer than declared when [start] lies inside the archive. *)
Theorem payload_clamped (bo : byteorder) (raw : bytes)
    (pre post : list (N * N * N)) (start len : N) :
  startswith raw magic = true ->
  terminated_index bo raw (pre ++ (1, start, len) :: post) ->
  Forall (fun r => r.1.1 ≠ 1) post ->
  N.of_nat (length raw) < start + len ->
  read_payload bo raw = Return (drop_N start raw) /\
  N.of_nat (length (drop_N start raw)) = N.of_nat (length raw) - start /\
  N.of_nat (length (drop_N start raw)) <= len /\
  (start <= N.of_nat (length raw) -> N.of_nat (length (drop_N start raw)) < len).
Proof.
  intros Hmagic Hindex Hpost Hlen.
  assert (length (drop_N start raw) = (length raw - N.to_nat start)%nat) as Hdrop
    by (by rewrite drop_N_drop, length_drop).
  split_and!; [|lia..].
  rewrite (read_payload_terminated bo raw _ Hmagic Hindex).
  unfold store_all. rewrite lookup_fold_store_last by done.
  f_equal. unfold slice. rewrite take_N_take. apply take_ge. lia.
Qed.

Lemma payload_clamped_witness :
  read_payload little Examples.short_archive =
    Return (drop_N 34 Examples.short_archive) /\
  N.of_nat (length (drop_N 34 Examples.short_archive)) =
    N.of_nat (length Examples.short_archive) - 34 /\
  N.of_nat (length (drop_N 34 Examples.short_archive)) <= 100 /\
  (34 <= N.of_nat (length Examples.short_archive) ->
   N.of_nat (length (drop_N 34 Examples.short_archive)) < 100).
Proof.
  apply (payload_clamped little Examples.short_archive [] [] 34 100).
  - by vm_compute.
  - index_by_computation.
  - constructor.
  - by vm_compute.
Defined.

(** ** Truncated index *)

(** C3: in an indexed archive, when fewer than twelve bytes remain at the
    position where the loop reads its next record (the records before it are
    complete, none has slot zero, and the range of the loop is not used up),
    reading fails with [struct.error], the TruncatedError of the
    specification.  In particular, cutting an archive with a terminated index
    strictly between the boundaries of one of its records, the terminator
    included, makes reading fail in that way.  Slices never reach past the
    end of the buffer ([length_slice]). *)
Theorem truncated_index_fails (bo : byteorder) (raw : bytes) :
  startswith raw magic = true ->
  (forall recs : list (N * N * N),
     records_from bo raw 0 recs -> in_range recs ->
     (length raw < 10 + 12 * length recs + 12)%nat ->
     read_payload bo raw = Raise struct_error) /\
  (forall (recs : list (N * N * N)) (k t : nat),
     terminated_index bo raw recs ->
     (k <= length recs)%nat ->
     (10 + 12 * k < t < 10 + 12 * (k + 1))%nat ->
     read_payload bo (take t raw) = Raise struct_error).
Proof.
  intros Hmagic. split.
  - intros recs. by apply read_payload_truncated.
  - intros recs k t (Hrecs & Hlim & _) Hk Ht.
    apply (read_payload_truncated bo (take t raw) (take k recs)).
    + apply startswith_take; [done|]. cbn [length magic]. lia.
    + apply records_from_take; [done|lia].
    + unfold in_range in *. rewrite length_take. lia.
    + rewrite !length_take. lia.
Qed.

Lemma truncated_index_fails_witness :
  read_payload little Examples.unterminated = Raise struct_error /\
  read_payload little (take 29 Examples.no_slot_1) = Raise struct_error.
Proof.
  assert (startswith Examples.unterminated magic = true) as H1 by by vm_compute.
  assert (startswith Examples.no_slot_1 magic = true) as H2 by by vm_compute.
  split.
  - apply (proj1 (truncated_index_fails little Examples.unterminated H1) [(1, 22, 4)]).
    + vm_compute; split_and!; done.
    + by vm_compute.
    + vm_compute; lia.
  - apply (proj2 (truncated_index_fails little Examples.no_slot_1 H2)
             [(2, 46, 1); (3, 47, 1)] 1%nat 29%nat).
    + index_by_computation.
    + vm_compute; lia.
    + lia.
Defined.

(** ** Missing data slot *)

(** C4: when the scan of an indexed archive reaches the zero-slot terminator
    and none of the records in front of it names slot 1, [read_payload] raises
    [ValueError("Unable to find data slot in RPYC file")], the FormatError of
    the specification, and returns no payload. *)
Theorem missing_data_slot_fails (bo : byteorder) (raw : bytes)
    (recs : list (N * N * N)) :
  startswith raw magic = true ->
  terminated_index bo raw recs ->
  Forall (fun r => r.1.1 ≠ 1) recs ->
  read_payload bo raw = Raise (ValueError no_data_slot).
Proof.
  intros Hmagic Hindex Hslots.
  rewrite (read_payload_terminated bo raw recs Hmagic Hindex).
  unfold store_all. by rewrite lookup_fold_store_absent.
Qed.

Lemma missing_data_slot_fails_witness :
  read_payload little Examples.no_slot_1 = Raise (ValueError no_data_slot).
Proof.
  apply (missing_data_slot_fails little Examples.no_slot_1 [(2, 46, 1); (3, 47, 1)]).
  - by vm_compute.
  - index_by_computation.
  - repeat constructor; by vm_compute.
Defined.

(** ** Legacy archives *)

(** C5: an input that does not begin with the ten bytes of the marker is
    returned whole and unchanged as the payload, and the rest of
    [read_ast_from_file] treats it exactly as it treats those bytes handed
    over directly. *)
Theorem legacy_payload_is_input (zlib_decompress : bytes -> res bytes)
    (pickle_safe_loads : bytes -> res (value * value))
    (bo : byteorder) (raw : bytes) :
  startswith raw magic = false ->
  read_payload bo raw = Return raw /\
  read_ast_from_file zlib_decompress pickle_safe_loads bo raw =
    load_contents zlib_decompress pickle_safe_loads raw.
Proof.
  intros Hmagic. unfold read_ast_from_file.
  by rewrite (read_payload_legacy bo raw Hmagic).
Qed.

Lemma legacy_payload_is_input_witness :
  read_payload little Examples.compressed_pair = Return Examples.compressed_pair /\
  read_ast_from_file Examples.inflate_stored Examples.safe_loads little
    Examples.compressed_pair =
  load_contents Examples.inflate_stored Examples.safe_loads Examples.compressed_pair.
Proof.
  apply (legacy_payload_is_input Examples.inflate_stored Examples.safe_loads
           little Examples.compressed_pair).
  by vm_compute.
Defined.

(** ** Round trip through the framing *)

Lemma wrap_index (bo : byteorder) (payload : bytes) :
  N.of_nat (length payload) < 2 ^ 32 ->
  terminated_index bo (wrap bo payload) [(1, 34, N.of_nat (length payload))].
Proof.
  intros Hlen. apply terminated_index_archive.
  - repeat constructor; cbn [fst snd]; [by compute..|done].
  - by repeat constructor.
  - by vm_compute.
Qed.

Lemma read_payload_wrap (bo : byteorder) (payload : bytes) :
  N.of_nat (length payload) < 2 ^ 32 ->
  read_payload bo (wrap bo payload) = Return payload.
Proof.
  intros Hlen. pose proof (wrap_index bo payload Hlen) as Hindex.
  unfold wrap in *.
  rewrite (read_payload_terminated bo _ _ (startswith_archive bo _ _) Hindex).
  unfold store_all, store; cbn [fold_left fst snd]. rewrite lookup_insert_eq.
  f_equal. unfold indexed_archive. cbn [fmap list_fmap concat].
  rewrite app_nil_r, !(app_assoc _ _ payload).
  apply slice_app_end; [|done].
  rewrite !length_app, !length_pack_III. by cbn.
Qed.

(** C6, as stated, fails on a big-endian host: the archive that wraps a
    zlib stream with a little-endian record for slot 1, the wire format, is
    not read back there; the slot of the record is decoded as 16777216, slot
    1 is not found and nothing is decompressed. *)
Lemma round_trip_on_big_endian_host :
  Examples.inflate_stored Examples.compressed_pair = Return Examples.pickled_pair /\
  read_payload big (wrap little Examples.compressed_pair) =
    Raise (ValueError no_data_slot) /\
  read_ast_from_file Examples.inflate_stored Examples.safe_loads big
    (wrap little Examples.compressed_pair) = Raise (ValueError no_data_slot).
Proof. split_and!; by vm_compute. Qed.

(** C6, amended: for every payload [P] and every zlib stream [Z] of it (what
    [zlib.decompress] turns back into [P]) that a 32-bit length can describe,
    take the archive made of the marker, one index record for slot 1 that
    addresses [Z], written in the byte order of the host that reads it
    (little-endian, the wire format, on a little-endian host), a zero-slot
    terminator and [Z] itself.  The reader returns [Z], and
    [read_ast_from_file] decompresses it on line 54 to exactly [P]: whatever
    the deserializer is, the result is that of the deserializer on [P]. *)
Theorem framing_round_trip (zlib_decompress : bytes -> res bytes)
    (pickle_safe_loads : bytes -> res (value * value))
    (bo : byteorder) (P Z : bytes) :
  zlib_decompress Z = Return P ->
  N.of_nat (length Z) < 2 ^ 32 ->
  read_payload bo (wrap bo Z) = Return Z /\
  read_ast_from_file zlib_decompress pickle_safe_loads bo (wrap bo Z) =
    load_contents zlib_decompress pickle_safe_loads Z /\
  read_ast_from_file zlib_decompress pickle_safe_loads bo (wrap bo Z) =
    ('(_, stmts) ← pickle_safe_loads P; Return stmts).
Proof.
  intros Hz Hlen. unfold read_ast_from_file.
  rewrite (read_payload_wrap bo Z Hlen). cbn [mbind res_bind].
  split_and!; [done..|]. unfold load_contents. by rewrite Hz.
Qed.

Lemma framing_round_trip_witness :
  read_payload little (wrap little Examples.compressed_pair) =
    Return Examples.compressed_pair /\
  read_ast_from_file Examples.inflate_stored Examples.safe_loads little
    (wrap little Examples.compressed_pair) =
    load_contents Examples.inflate_stored Examples.safe_loads
      Examples.compressed_pair /\
  read_ast_from_file Examples.inflate_stored Examples.safe_loads little
    (wrap little Examples.compressed_pair) =
    ('(_, stmts) ← Examples.safe_loads Examples.pickled_pair; Return stmts).
Proof.
  apply (framing_round_trip Examples.inflate_stored Examples.safe_loads little
           Examples.pickled_pair Examples.compressed_pair).
  - by vm_compute.
  - by vm_compute.
Defined.

(** ** Termination of the scan *)

Lemma records_from_lookup (bo : byteorder) (raw : bytes) (recs : list (N * N * N)) :
  forall (k i : nat) (r : N * N * N),
  records_from bo raw k recs -> recs !! i = Some r ->
  record_at bo raw (k + i) = Some r /\ r.1.1 ≠ 0.
Proof.
  induction recs as [|r0 recs IH]; intros k i r Hrecs Hi; [done|].
  destruct Hrecs as (Hr0 & Hslot & Hrecs). destruct i as [|i].
  - injection Hi as <-. by rewrite Nat.add_0_r.
  - replace (k + S i)%nat with (S k + i)%nat by lia. by apply IH.
Qed.

(** An archive of [n] records for slot 1 and nothing else: no sentinel, and
    when [n] is the size of the range the loop runs out of indices. *)
Lemma repeated_slot_1 (n : nat) :
  let raw := magic ++ concat (pack_III little <$> replicate n (1, 0, 0)) in
  N.of_nat n = N.pos scan_limit ->
  no_sentinel little raw /\
  scan little raw =
    Continue (mk_scan (offset n) (store_all raw (replicate n (1, 0, 0)))) /\
  read_payload little raw = Return [].
Proof.
  intros raw Hn.
  assert (records_from little raw 0 (replicate n (1, 0, 0))) as Hrecs.
  { pose proof (records_from_packed little (replicate n (1, 0, 0)) [] []) as H.
    rewrite app_nil_r in H. apply H; apply Forall_replicate; by compute. }
  assert (scan little raw =
    Continue (mk_scan (offset n) (store_all raw (replicate n (1, 0, 0))))) as Hscan.
  { rewrite (scan_exhausted little raw _ Hrecs); rewrite length_replicate; done. }
  split_and!; [|done|].
  - intros k start len Hk. destruct (decide (k < n)%nat) as [Hlt|Hge].
    + assert (replicate n (1, 0, 0) !! k = Some (1, 0, 0)) as Hlook
        by by apply lookup_replicate_2.
      destruct (records_from_lookup _ _ _ 0 k _ Hrecs Hlook) as [Hr _].
      change (0 + k)%nat with k in Hr. rewrite Hr in Hk. discriminate.
    + rewrite record_at_short in Hk; [done|]. unfold raw.
      rewrite length_app, length_packed, length_replicate. cbn [length magic]. lia.
  - rewrite read_payload_indexed, Hscan by by apply startswith_app; eexists.
    cbn [chunks]. destruct n as [|n]; [lia|].
    rewrite replicate_S_end. unfold store_all.
    by rewrite lookup_fold_store_last by constructor.
Qed.

(** C7, as stated, fails: [huge_archive] has no zero-slot record, and the
    scan does not fail on it; the range of the loop is used up after its
    4294967294 records and the reader returns the (empty) chunk of slot 1. *)
Lemma huge_archive_scan_runs_out :
  no_sentinel little Examples.huge_archive /\
  scan little Examples.huge_archive =
    Continue (mk_scan (offset (Pos.to_nat scan_limit))
                (store_all Examples.huge_archive
                   (replicate (Pos.to_nat scan_limit) (1, 0, 0)))) /\
  read_payload little Examples.huge_archive = Return [].
Proof. apply (repeated_slot_1 (Pos.to_nat scan_limit)), positive_nat_N. Qed.

(** C7, amended: the scanning loop terminates on every input.  It is bounded
    by the buffer: its result is reached after at most one pass per twelve
    bytes of the buffer and one more, and no more than the 4294967294 passes
    of its range.  On an archive that never presents a zero-slot record and
    is too short to hold 4294967294 records it fails with [struct.error]
    rather than looping on or reading outside the buffer. *)
Theorem scan_terminates (bo : byteorder) (raw : bytes) :
  (exists n : nat,
     (n <= length raw / 12 + 1)%nat /\ N.of_nat n <= N.pos scan_limit /\
     scan bo raw = for_nat (scan_body bo raw) n 1 (mk_scan 10 ∅)) /\
  (no_sentinel bo raw ->
   N.of_nat (length raw) < 10 + 12 * N.pos scan_limit ->
   scan bo raw = Throw struct_error).
Proof.
  split.
  - destruct (for_nat_scan_bounded bo raw (Pos.to_nat scan_limit))
      as (n & Hn & Hbound & Heq).
    exists n. split_and!; [done|lia|]. by rewrite scan_for_nat.
  - intros Hfree Hlen. apply scan_no_sentinel; [done|].
    unfold offset. lia.
Qed.

Lemma scan_terminates_witness :
  scan little Examples.unterminated = Throw struct_error.
Proof.
  apply (proj2 (scan_terminates little Examples.unterminated)).
  - intros k start len.
    destruct k as [|[|k]]; [by vm_compute..|].
    rewrite record_at_short; [done|].
    change (length Examples.unterminated) with 22%nat. lia.
  - by vm_compute.
Defined.

(** ** Byte order of the index records *)

(** C8, as stated, fails: on a big-endian host the twelve bytes that encode
    the record (1, 22, 5) in little-endian order are decoded as another
    triple, in which slot 1 does not occur. *)
Lemma record_on_big_endian_host :
  unpack_III little Examples.record_1_22_5 = Some (1, 22, 5) /\
  unpack_III big Examples.record_1_22_5 = Some (16777216, 369098752, 83886080).
Proof. split; by vm_compute. Qed.

Lemma unpack_I_little (b0 b1 b2 b3 : byte) :
  unpack_I little b0 b1 b2 b3 = little_endian_value b0 b1 b2 b3.
Proof. apply uint32_le_digits. Qed.

Lemma unpack_I_big (b0 b1 b2 b3 : byte) :
  unpack_I big b0 b1 b2 b3 = big_endian_value b0 b1 b2 b3.
Proof.
  cbn [unpack_I]. rewrite uint32_le_digits. unfold big_endian_value. lia.
Qed.

Lemma unpack_I_bound (bo : byteorder) (b0 b1 b2 b3 : byte) :
  unpack_I bo b0 b1 b2 b3 < 2 ^ 32.
Proof. destruct bo; apply uint32_le_bound. Qed.

(** C8, amended: every twelve-byte index record is decoded as the triple
    (slot, start, length) of unsigned 32-bit integers in the byte order of
    the host, since the format ["III"] names none: little-endian on a
    little-endian host, big-endian on a big-endian one. *)
Theorem unpack_III_native (a0 a1 a2 a3 b0 b1 b2 b3 c0 c1 c2 c3 : byte) :
  let record := [a0; a1; a2; a3; b0; b1; b2; b3; c0; c1; c2; c3] in
  unpack_III little record =
    Some (little_endian_value a0 a1 a2 a3, little_endian_value b0 b1 b2 b3,
          little_endian_value c0 c1 c2 c3) /\
  unpack_III big record =
    Some (big_endian_value a0 a1 a2 a3, big_endian_value b0 b1 b2 b3,
          big_endian_value c0 c1 c2 c3) /\
  forall bo : byteorder,
    exists slot start len : N,
      unpack_III bo record = Some (slot, start, len) /\
      slot < 2 ^ 32 /\ start < 2 ^ 32 /\ len < 2 ^ 32.
Proof.
  intros record. split_and!.
  - cbn [unpack_III record]. by rewrite !unpack_I_little.
  - cbn [unpack_III record]. by rewrite !unpack_I_big.
  - intros bo. do 3 eexists. split; [reflexivity|].
    split_and!; apply unpack_I_bound.
Qed.

(** ** The end-to-end example *)

(** C9, as stated, fails: with the record (1, 22, L) the payload starts at
    the terminator, which occupies the bytes 22 to 34; the reader hands the
    twelve zero bytes and the first nine bytes of the compressed stream to
    [zlib.decompress], which rejects them. *)
Lemma pair_at_22_rejected :
  read_payload little Examples.pair_at_22 =
    Return (replicate 12 x00 ++ take 9 Examples.compressed_pair) /\
  read_ast_from_file Examples.inflate_stored Examples.safe_loads little
    Examples.pair_at_22 = Raise zlib_error.
Proof. split; by vm_compute. Qed.

(** C9, amended: for the archive made of ["RENPY RPC2"], the little-endian
    record (1, 34, L), the zero record and, from offset 34 on, the [L] bytes
    of a zlib stream of the serialized pair (None, []), read on a
    little-endian host, the payload is that stream, the deserializer is
    handed the serialized pair, and [read_ast_from_file] returns the root
    object [[]]. *)
Theorem end_to_end_pair (zlib_decompress : bytes -> res bytes)
    (pickle_safe_loads : bytes -> res (value * value)) (Z stream : bytes) :
  zlib_decompress Z = Return stream ->
  pickle_safe_loads stream = Return (VNone, VSeq []) ->
  N.of_nat (length Z) < 2 ^ 32 ->
  let archive := indexed_archive little [(1, 34, N.of_nat (length Z))] Z in
  read_payload little archive = Return Z /\
  ((read_payload little archive ≫= zlib_decompress) ≫= pickle_safe_loads) =
    Return (VNone, VSeq []) /\
  read_ast_from_file zlib_decompress pickle_safe_loads little archive =
    Return (VSeq []).
Proof.
  intros Hz Hloads Hlen archive.
  assert (read_payload little archive = Return Z) as Hread
    by by apply read_payload_wrap.
  unfold read_ast_from_file, load_contents. rewrite Hread.
  cbn [mbind res_bind]. rewrite Hz. cbn [mbind res_bind]. by rewrite Hloads.
Qed.

Lemma end_to_end_pair_witness :
  let archive := indexed_archive little [(1, 34, 21)] Examples.compressed_pair in
  read_payload little archive = Return Examples.compressed_pair /\
  ((read_payload little archive ≫= Examples.inflate_stored)
     ≫= Examples.safe_loads) = Return (VNone, VSeq []) /\
  read_ast_from_file Examples.inflate_stored Examples.safe_loads little archive =
    Return (VSeq []).
Proof.
  apply (end_to_end_pair Examples.inflate_stored Examples.safe_loads
           Examples.compressed_pair Examples.pickled_pair).
  - by vm_compute.
  - by vm_compute.
  - by vm_compute.
Defined.

(** ** Repeated slots *)

(** C10: when several index records in front of the terminator name the same
    non-zero slot, the chunk stored for that slot is the byte range of the
    last of them; for slot 1 this is the payload the reader returns. *)
Theorem last_record_wins (bo : byteorder) (raw : bytes)
    (pre post : list (N * N * N)) (slot start len : N) :
  startswith raw magic = true ->
  terminated_index bo raw (pre ++ (slot, start, len) :: post) ->
  Forall (fun r => r.1.1 ≠ slot) post ->
  (exists st : scan_state,
     scan bo raw = Break st /\
     chunks st !! slot = Some (slice raw start (start + len))) /\
  (slot = 1 -> read_payload bo raw = Return (slice raw start (start + len))).
Proof.
  intros Hmagic Hindex Hpost. split.
  - destruct Hindex as (Hrecs & Hlim & start0 & len0 & Hzero).
    eexists. split; [by eapply scan_terminated|].
    cbn [chunks]. by apply lookup_fold_store_last.
  - intros ->. rewrite (read_payload_terminated bo raw _ Hmagic Hindex).
    unfold store_all. by rewrite lookup_fold_store_last.
Qed.

Lemma last_record_wins_witness :
  (exists st : scan_state,
     scan little Examples.slot_1_twice = Break st /\
     chunks st !! 1 = Some (slice Examples.slot_1_twice 59 (59 + 2))) /\
  (1 = 1 -> read_payload little Examples.slot_1_twice =
            Return (slice Examples.slot_1_twice 59 (59 + 2))).
Proof.
  apply (last_record_wins little Examples.slot_1_twice
           [(1, 58, 1); (2, 58, 2)] [] 1 59 2).
  - by vm_compute.
  - index_by_computation.
  - constructor.
Defined.

(** ** Types outside the Allow-list *)

(** C1: when a stream, after opcodes that execute without error, asks for
    the construction of a type identifier that is not in the Allow-list,
    deserialization fails with UnsupportedTypeError whatever the field values
    are and whatever follows in the stream; nothing is built for the
    identifier.  The failure passes through line 55 of [read_ast_from_file],
    which returns no statements. *)
Theorem unlisted_type_fails_closed (allow_list : gmap string SafeLoads.recipe)
    (pre rest : list SafeLoads.opcode) (st : SafeLoads.state)
    (args : value) (type_name : string) (stk : list value) :
  SafeLoads.exec allow_list pre SafeLoads.initial = Return st ->
  SafeLoads.stack st = args :: VStr type_name :: stk ->
  allow_list !! type_name = None ->
  SafeLoads.deserialize allow_list (pre ++ SafeLoads.Construct :: rest) =
    Raise UnsupportedTypeError /\
  forall (zlib_decompress : bytes -> res bytes)
         (decode : bytes -> list SafeLoads.opcode)
         (bo : byteorder) (raw stream : bytes),
    (read_payload bo raw ≫= zlib_decompress) = Return stream ->
    decode stream = pre ++ SafeLoads.Construct :: rest ->
    read_ast_from_file zlib_decompress
      (fun s => SafeLoads.deserialize allow_list (decode s)) bo raw =
      Raise UnsupportedTypeError.
Proof.
  intros Hpre Hstack Hallow.
  assert (SafeLoads.deserialize allow_list (pre ++ SafeLoads.Construct :: rest) =
          Raise UnsupportedTypeError) as Hfail.
  { unfold SafeLoads.deserialize. rewrite (run_exec _ _ _ _ _ Hpre).
    cbn [SafeLoads.run SafeLoads.step]. by rewrite Hstack, Hallow. }
  split; [done|]. intros zlib_decompress decode bo raw stream Hstream Hdecode.
  unfold read_ast_from_file, load_contents.
  destruct (read_payload bo raw) as [contents|]; [|done].
  cbn [mbind res_bind] in *. rewrite Hstream. cbn [mbind res_bind].
  by rewrite Hdecode, Hfail.
Qed.

Lemma unlisted_type_fails_closed_witness :
  SafeLoads.deserialize Examples.allow_list
    (Examples.unlisted_prefix ++ SafeLoads.Construct :: [SafeLoads.Stop]) =
    Raise UnsupportedTypeError.
Proof.
  apply (unlisted_type_fails_closed Examples.allow_list Examples.unlisted_prefix
           [SafeLoads.Stop]
           (SafeLoads.mk_state [VRecord [VStr "id"]; VStr "os.system"] [])
           (VRecord [VStr "id"]) "os.system" []).
  - by vm_compute.
  - reflexivity.
  - by vm_compute.
Defined.

(** * Further properties of the reader *)

(** ** Invariants of the scan *)

Section LoopInvariant.
Context {S : Type}.
Variable body : N -> S -> flow S.
Variable P : S -> Prop.
Variable Q : exn -> Prop.
Hypothesis step_continue : forall i s s', P s -> body i s = Continue s' -> P s'.
Hypothesis step_break : forall i s s', P s -> body i s = Break s' -> P s'.
Hypothesis step_throw : forall i s e, P s -> body i s = Throw e -> Q e.

Lemma for_nat_invariant (n : nat) :
  forall (i : N) (s : S), P s ->
  match for_nat body n i s with
  | Continue s' | Break s' => P s'
  | Throw e => Q e
  end.
Proof.
  induction n as [|n IH]; intros i s Hs; [done|].
  cbn [for_nat]. destruct (body i s) as [s'|s'|e] eqn:Hbody; eauto.
  apply IH. eauto.
Qed.
End LoopInvariant.

Lemma unpack_III_bounds (bo : byteorder) (buf : bytes) (slot start len : N) :
  unpack_III bo buf = Some (slot, start, len) ->
  slot < 2 ^ 32 /\ start < 2 ^ 32 /\ len < 2 ^ 32.
Proof.
  intros Hbuf. do 13 (destruct buf as [|? buf]; try done).
  cbn [unpack_III] in Hbuf. injection Hbuf as <- <- <-.
  split_and!; apply unpack_I_bound.
Qed.

Lemma scan_invariant (bo : byteorder) (raw : bytes) :
  match scan bo raw with
  | Continue st | Break st =>
      forall slot c, chunks st !! slot = Some c -> chunk_ok raw slot c
  | Throw e => e = struct_error
  end.
Proof.
  rewrite scan_for_nat.
  apply (for_nat_invariant (scan_body bo raw)
           (fun st => forall slot c, chunks st !! slot = Some c -> chunk_ok raw slot c)
           (fun e => e = struct_error)).
  - intros i [pos ch] st' Hinv. unfold scan_body; cbn [position chunks].
    destruct (unpack_III _ _) as [[[slot start] len]|] eqn:Hrec; [|done].
    destruct (unpack_III_bounds _ _ _ _ _ Hrec) as (H1 & H2 & H3).
    destruct (N.eqb_spec slot 0) as [|Hslot]; [done|].
    intros [= <-] slot' c. cbn [chunks]. rewrite lookup_insert.
    case_decide as Heq; [|by apply Hinv].
    intros [= <-]. subst slot'. split_and!; [done..|]. by exists start, len.
  - intros i [pos ch] st' Hinv. unfold scan_body; cbn [position chunks].
    destruct (unpack_III _ _) as [[[slot start] len]|]; [|done].
    destruct (slot =? 0); [|done]. by intros [= <-].
  - intros i [pos ch] e _. unfold scan_body; cbn [position chunks].
    destruct (unpack_III _ _) as [[[slot start] len]|]; [|by intros [= <-]].
    by destruct (slot =? 0).
  - intros slot c. cbn [chunks]. by rewrite lookup_empty.
Qed.

(** X1: on every input, [read_payload] either raises [struct.error], or
    raises the [ValueError] for the missing data slot, or returns a
    contiguous range of the input bytes; it raises nothing else and makes up
    no bytes. *)
Theorem read_payload_outcomes (bo : byteorder) (raw : bytes) :
  read_payload bo raw = Raise struct_error \/
  read_payload bo raw = Raise (ValueError no_data_slot) \/
  exists lo hi : N, read_payload bo raw = Return (slice raw lo hi).
Proof.
  unfold read_payload. destruct (startswith raw magic); cbn [negb].
  - pose proof (scan_invariant bo raw) as Hinv.
    destruct (scan bo raw) as [st|st|e].
    + destruct (chunks st !! 1) as [c|] eqn:Hc; [|by auto].
      destruct (Hinv _ _ Hc) as (_ & _ & start & len & _ & _ & ->). eauto.
    + destruct (chunks st !! 1) as [c|] eqn:Hc; [|by auto].
      destruct (Hinv _ _ Hc) as (_ & _ & start & len & _ & _ & ->). eauto.
    + subst e. by left.
  - right; right. exists 0, (N.of_nat (length raw)).
    rewrite slice_take_drop, N.sub_0_r, Nat2N.id. cbn [drop N.to_nat].
    by rewrite take_ge.
Qed.

(** X2: whenever the loop is left without an exception, every key of
    [chunks] is a non-zero 32-bit slot number and every chunk is the slice
    that a 32-bit start and length cut out of the archive, so it is shorter
    than 2^32 bytes and no longer than the archive. *)
Theorem chunks_are_slices (bo : byteorder) (raw : bytes) (ch : gmap N bytes)
    (slot : N) (c : bytes) :
  final_chunks bo raw = Some ch ->
  ch !! slot = Some c ->
  chunk_ok raw slot c /\
  N.of_nat (length c) < 2 ^ 32 /\ (length c <= length raw)%nat.
Proof.
  unfold final_chunks. intros Hfinal Hc.
  pose proof (scan_invariant bo raw) as Hinv.
  assert (chunk_ok raw slot c) as Hok.
  { destruct (scan bo raw) as [st|st|e]; [| |done];
      injection Hfinal as <-; by apply Hinv. }
  split; [done|]. destruct Hok as (_ & _ & start & len & _ & Hlen & ->).
  rewrite length_slice. split; lia.
Qed.

Lemma chunks_are_slices_witness :
  chunk_ok Examples.slot_1_twice 1 [xbb; xcc] /\
  N.of_nat (length [xbb; xcc]) < 2 ^ 32 /\
  (length [xbb; xcc] <= length Examples.slot_1_twice)%nat.
Proof.
  apply (chunks_are_slices little Examples.slot_1_twice
           (store_all Examples.slot_1_twice [(1, 58, 1); (2, 58, 2); (1, 59, 2)])
           1 [xbb; xcc]).
  - by vm_compute.
  - by vm_compute.
Defined.

(** ** The payload inside the archive *)

(** X3: when the range of the last slot-1 record lies inside the archive,
    the payload has exactly the declared length and is, byte for byte, the
    archive from [start] on. *)
Theorem payload_in_bounds_exact (bo : byteorder) (raw : bytes)
    (pre post : list (N * N * N)) (start len : N) :
  startswith raw magic = true ->
  terminated_index bo raw (pre ++ (1, start, len) :: post) ->
  Forall (fun r => r.1.1 ≠ 1) post ->
  start + len <= N.of_nat (length raw) ->
  exists payload : bytes,
    read_payload bo raw = Return payload /\
    N.of_nat (length payload) = len /\
    forall i : nat, (i < N.to_nat len)%nat ->
      payload !! i = raw !! (N.to_nat start + i)%nat.
Proof.
  intros Hmagic Hindex Hpost Hin. exists (slice raw start (start + len)).
  split_and!.
  - rewrite (read_payload_terminated bo raw _ Hmagic Hindex).
    unfold store_all. by rewrite lookup_fold_store_last.
  - rewrite length_slice. lia.
  - intros i Hi. rewrite slice_take_drop.
    replace (N.to_nat (start + len - start)) with (N.to_nat len) by lia.
    by rewrite lookup_take_lt, lookup_drop.
Qed.

Lemma payload_in_bounds_exact_witness :
  exists payload : bytes,
    read_payload little Examples.slot_1_twice = Return payload /\
    N.of_nat (length payload) = 2 /\
    forall i : nat, (i < N.to_nat 2)%nat ->
      payload !! i = Examples.slot_1_twice !! (N.to_nat 59 + i)%nat.
Proof.
  apply (payload_in_bounds_exact little Examples.slot_1_twice
           [(1, 58, 1); (2, 58, 2)] [] 59 2).
  - by vm_compute.
  - index_by_computation.
  - constructor.
  - by vm_compute.
Defined.

(** X4: the payload is found wherever the slot-1 record points.  For any
    list of well-formed records with non-zero slots whose last slot-1 record
    addresses the bytes [Z] placed behind the terminator and any padding, the
    reader returns exactly [Z]: the records of other slots, the padding and
    whatever follows [Z] play no part. *)
Theorem payload_found_among_slots (bo : byteorder)
    (pre post : list (N * N * N)) (pad Z tail : bytes) :
  let recs := pre ++ (1, offset (length pre + length post + 2)
                         + N.of_nat (length pad),
                      N.of_nat (length Z)) :: post in
  Forall uint32_record recs ->
  Forall (fun r => r.1.1 ≠ 0) recs ->
  Forall (fun r => r.1.1 ≠ 1) post ->
  in_range recs ->
  read_payload bo (indexed_archive bo recs (pad ++ Z ++ tail)) = Return Z.
Proof.
  intros recs Hwf Hslots Hpost Hlim.
  rewrite (read_payload_terminated bo _ recs (startswith_archive bo _ _)
             (terminated_index_archive bo recs _ Hwf Hslots Hlim)).
  unfold store_all, recs. rewrite lookup_fold_store_last by done.
  f_equal. unfold indexed_archive.
  rewrite !(app_assoc _ _ (Z ++ tail)). apply slice_app_middle; [|done].
  rewrite !length_app, length_packed, length_pack_III, !length_app.
  unfold offset. cbn [length magic]. lia.
Qed.

Lemma payload_found_among_slots_witness :
  read_payload little
    (indexed_archive little
       ([(2, 0, 5)] ++ (1, offset (1 + 1 + 2) + 3, 2) :: [(7, 1, 1)])
       ([x00; x00; x00] ++ [xbb; xcc] ++ [xdd])) = Return [xbb; xcc].
Proof.
  apply (payload_found_among_slots little [(2, 0, 5)] [(7, 1, 1)]
           [x00; x00; x00] [xbb; xcc] [xdd]).
  - repeat constructor; by vm_compute.
  - repeat constructor; by vm_compute.
  - repeat constructor; by vm_compute.
  - by vm_compute.
Defined.

(** ** Bytes behind the index *)

Lemma slice_app_inside {A} (l extra : list A) (lo hi : N) :
  (N.to_nat hi <= length l)%nat -> slice (l ++ extra) lo hi = slice l lo hi.
Proof.
  intros Hhi. rewrite <- (slice_take (l ++ extra) (length l)) by done.
  by rewrite take_app_length.
Qed.

Lemma record_at_app (bo : byteorder) (raw extra : bytes) (k : nat) (r : N * N * N) :
  record_at bo raw k = Some r -> record_at bo (raw ++ extra) k = Some r.
Proof.
  intros Hr. pose proof (record_at_inside _ _ _ _ Hr) as Hin.
  unfold record_at in *. rewrite slice_app_inside; [done|].
  pose proof (offset_nat k). lia.
Qed.

Lemma records_from_app (bo : byteorder) (raw extra : bytes) (recs : list (N * N * N)) :
  forall k : nat,
  records_from bo raw k recs -> records_from bo (raw ++ extra) k recs.
Proof.
  induction recs as [|r recs IH]; intros k; [done|].
  intros (Hr & Hslot & Hrecs). split_and!; [by apply record_at_app|done|by apply IH].
Qed.

(** X5: bytes appended to an archive are ignored.  When the index is
    terminated and the range of the last slot-1 record lies inside the
    archive, the reader returns the same payload whatever follows the
    archive. *)
Theorem trailing_bytes_ignored (bo : byteorder) (raw extra : bytes)
    (pre post : list (N * N * N)) (start len : N) :
  startswith raw magic = true ->
  terminated_index bo raw (pre ++ (1, start, len) :: post) ->
  Forall (fun r => r.1.1 ≠ 1) post ->
  start + len <= N.of_nat (length raw) ->
  read_payload bo (raw ++ extra) = read_payload bo raw.
Proof.
  intros Hmagic Hindex Hpost Hin.
  assert (startswith (raw ++ extra) magic = true) as Hmagic'.
  { apply startswith_app in Hmagic as [rest ->]. apply startswith_app.
    exists (rest ++ extra). by rewrite app_assoc. }
  assert (terminated_index bo (raw ++ extra) (pre ++ (1, start, len) :: post))
    as Hindex'.
  { destruct Hindex as (Hrecs & Hlim & s0 & l0 & Hzero). split_and!; [|done|].
    - by apply records_from_app.
    - exists s0, l0. by apply record_at_app. }
  rewrite (read_payload_terminated bo _ _ Hmagic Hindex),
          (read_payload_terminated bo _ _ Hmagic' Hindex').
  unfold store_all. rewrite !lookup_fold_store_last by done.
  f_equal. apply slice_app_inside. lia.
Qed.

Lemma trailing_bytes_ignored_witness :
  read_payload little (Examples.slot_1_twice ++ [x01; x02; x03]) =
  read_payload little Examples.slot_1_twice.
Proof.
  apply (trailing_bytes_ignored little Examples.slot_1_twice [x01; x02; x03]
           [(1, 58, 1); (2, 58, 2)] [] 59 2).
  - by vm_compute.
  - index_by_computation.
  - constructor.
  - by vm_compute.
Defined.

(** X6: an archive cut behind its index is not rejected.  When the cut
    leaves the terminator in place, the reader does not fail: it returns what
    is left of the payload of the last slot-1 record, a prefix of the payload
    of the whole archive. *)
Theorem cut_behind_index_is_silent (bo : byteorder) (raw : bytes)
    (pre post : list (N * N * N)) (start len : N) (t : nat) :
  startswith raw magic = true ->
  terminated_index bo raw (pre ++ (1, start, len) :: post) ->
  Forall (fun r => r.1.1 ≠ 1) post ->
  (10 + 12 * (length pre + length post + 2) <= t)%nat ->
  exists payload : bytes,
    read_payload bo raw = Return payload /\
    read_payload bo (take t raw) = Return (take (t - N.to_nat start) payload).
Proof.
  intros Hmagic Hindex Hpost Ht. set (recs := pre ++ (1, start, len) :: post) in *.
  assert (length recs = length pre + length post + 1)%nat as Hlen
    by (unfold recs; rewrite length_app; cbn [length]; lia).
  assert (startswith (take t raw) magic = true) as Hmagic'.
  { apply startswith_take; [done|]. cbn [length magic]. lia. }
  assert (terminated_index bo (take t raw) recs) as Hindex'.
  { destruct Hindex as (Hrecs & Hlim & s0 & l0 & Hzero). split_and!; [|done|].
    - rewrite <- (take_ge recs (length recs)) by done.
      apply records_from_take; [done|lia].
    - exists s0, l0. rewrite record_at_take; [done|lia]. }
  exists (slice raw start (start + len)).
  rewrite (read_payload_terminated bo _ _ Hmagic Hindex),
          (read_payload_terminated bo _ _ Hmagic' Hindex').
  unfold store_all, recs. rewrite !lookup_fold_store_last by done.
  split; [done|]. f_equal. rewrite !slice_take_drop.
  rewrite skipn_firstn_comm, !take_take. f_equal. lia.
Qed.

Lemma cut_behind_index_is_silent_witness :
  exists payload : bytes,
    read_payload little Examples.slot_1_twice = Return payload /\
    read_payload little (take 60 Examples.slot_1_twice) =
      Return (take (60 - N.to_nat 59) payload).
Proof.
  apply (cut_behind_index_is_silent little Examples.slot_1_twice
           [(1, 58, 1); (2, 58, 2)] [] 59 2 60).
  - by vm_compute.
  - index_by_computation.
  - constructor.
  - vm_compute; lia.
Defined.

(** * The command-line bridge *)

(** ** Suffixes *)

Lemma rsplit_dot_app (front back : string) :
  rsplit_dot back = None ->
  rsplit_dot (front +:+ String dot back) = Some (front, back).
Proof.
  intros Hback. induction front as [|c front IH]; simpl.
  - by rewrite Hback.
  - by rewrite IH.
Qed.

Lemma rsplit_dot_Some (s front back : string) :
  rsplit_dot s = Some (front, back) ->
  s = front +:+ String dot back /\ rsplit_dot back = None.
Proof.
  revert front; induction s as [|c s IH]; intros front; [done|]. simpl.
  destruct (rsplit_dot s) as [[f b]|] eqn:Hs.
  - intros [= <- <-]. destruct (IH f eq_refl) as [-> Hb]. done.
  - destruct (Ascii.eqb_spec c dot) as [->|]; [|done].
    intros [= <- <-]. done.
Qed.

Lemma append_empty_r (a : string) : a +:+ EmptyString = a.
Proof.
  induction a as [|x a IH]; [done|].
  change (String x (a +:+ EmptyString) = String x a). by rewrite IH.
Qed.

Lemma append_inv_head (a b c : string) : a +:+ b = a +:+ c -> b = c.
Proof.
  induction a as [|x a IH]; [done|].
  change (String x (a +:+ b) = String x (a +:+ c) -> b = c).
  intros [= H]. by apply IH.
Qed.

(** The stem and the suffix make up the name. *)
Lemma stem_suffix (p : path) : stem p +:+ suffix p = name p.
Proof.
  unfold stem, suffix. destruct (rsplit_dot (name p)) as [[front back]|] eqn:Hsplit.
  - apply rsplit_dot_Some in Hsplit as [Hname _].
    destruct front as [|c front], back as [|d back];
      [by rewrite append_empty_r.. | by rewrite Hname].
  - by rewrite append_empty_r.
Qed.

Lemma stem_empty (p : path) : stem p = EmptyString -> name p = EmptyString.
Proof.
  unfold stem. destruct (rsplit_dot (name p)) as [[front back]|]; [|done].
  by destruct front, back.
Qed.

Lemma suffix_with (dir : list string) (base ext : string) (c : Ascii.ascii) :
  rsplit_dot ext = None -> ext ≠ EmptyString ->
  suffix (mk_path dir (String c base +:+ String dot ext)) = String dot ext /\
  stem (mk_path dir (String c base +:+ String dot ext)) = String c base.
Proof.
  intros Hext Hne. unfold suffix, stem; cbn [name].
  rewrite (rsplit_dot_app (String c base) ext Hext). by destruct ext.
Qed.

(** X7: without an output argument, an input named [base.rpyc] is written
    to [base.rpy] and one named [base.rpymc] to [base.rpym], in the directory
    of the input, for every non-empty [base] (dots inside it included). *)
Theorem default_output_of_compiled (dir : list string) (base : string) :
  base ≠ EmptyString ->
  default_output (mk_path dir (base +:+ ".rpyc")) = Some (mk_path dir (base +:+ ".rpy")) /\
  default_output (mk_path dir (base +:+ ".rpymc")) = Some (mk_path dir (base +:+ ".rpym")).
Proof.
  intros Hbase. destruct base as [|c base]; [done|].
  destruct (suffix_with dir base "rpyc" c eq_refl) as [Hs1 Ht1]; [done|].
  destruct (suffix_with dir base "rpymc" c eq_refl) as [Hs2 Ht2]; [done|].
  unfold default_output, with_suffix.
  change (String dot "rpyc") with ".rpyc"%string in *.
  change (String dot "rpymc") with ".rpymc"%string in *.
  rewrite Hs1, Hs2, Ht1, Ht2. done.
Qed.

Lemma default_output_of_compiled_witness :
  default_output (mk_path ["game"] ("script.v2" +:+ ".rpyc")) =
    Some (mk_path ["game"] ("script.v2" +:+ ".rpy")) /\
  default_output (mk_path ["game"] ("script.v2" +:+ ".rpymc")) =
    Some (mk_path ["game"] ("script.v2" +:+ ".rpym")).
Proof. apply (default_output_of_compiled ["game"] "script.v2"). done. Defined.

(** X8: the default output path is, component for component and character
    for character, the input path exactly when the suffix of the input is
    [.rpy] in these very characters.  This compares path values as written;
    which files they name is up to the file system. *)
Theorem default_output_is_input (p : path) :
  default_output p = Some p <-> suffix p = ".rpy".
Proof.
  pose proof (stem_suffix p) as Hname. unfold default_output, with_suffix.
  destruct p as [dir n]; cbn [parent name] in *.
  set (p := mk_path dir n) in *. split.
  - destruct n as [|c n]; [by repeat case_match|].
    assert (forall new, Some (mk_path dir (stem p +:+ new)) = Some p ->
                        suffix p = new) as Hinv.
    { intros new [= Heq]. apply (append_inv_head (stem p)).
      by rewrite Hname, Heq. }
    destruct (String.eqb_spec (suffix p) ".rpyc") as [Hc|_].
    { intros H%Hinv. by rewrite Hc in H. }
    destruct (String.eqb_spec (suffix p) ".rpymc") as [Hc|_].
    { intros H%Hinv. by rewrite Hc in H. }
    apply Hinv.
  - intros Hs. rewrite Hs. cbn [String.eqb Ascii.eqb Bool.eqb].
    destruct n as [|c n].
    + rewrite <- Hname, Hs in Hs. by destruct (stem p).
    + rewrite <- Hs, Hname. done.
Qed.

(** X9: the default output path fails to exist only for an input path with
    an empty name; otherwise it lies in the directory of the input, keeps the
    stem of the input, and has the suffix [.rpym] when the input has the
    suffix [.rpymc] and the suffix [.rpy] in every other case. *)
Theorem default_output_shape (p : path) :
  (default_output p = None <-> name p = EmptyString) /\
  forall q : path,
    default_output p = Some q ->
    parent q = parent p /\ stem q = stem p /\
    suffix q = if String.eqb (suffix p) ".rpymc" then ".rpym"%string
               else ".rpy"%string.
Proof.
  split.
  - unfold default_output, with_suffix.
    destruct (name p); repeat case_match; split; done.
  - intros q. unfold default_output, with_suffix.
    destruct (name p) as [|c n] eqn:Hname; [by repeat case_match|].
    destruct (stem p) as [|d base] eqn:Hstem.
    { apply stem_empty in Hstem. congruence. }
    destruct (suffix_with (parent p) base "rpy" d eq_refl) as [Hs1 Ht1]; [done|].
    destruct (suffix_with (parent p) base "rpym" d eq_refl) as [Hs2 Ht2]; [done|].
    destruct (String.eqb_spec (suffix p) ".rpyc") as [Hc|_].
    { rewrite Hc. intros [= <-]. by split_and!. }
    destruct (String.eqb (suffix p) ".rpymc"); intros [= <-]; by split_and!.
Qed.

(** ** [decompile_file] *)

Section BridgeFacts.
Context {W : Type}.
Variable zlib_decompress : bytes -> res bytes.
Variable pickle_safe_loads : bytes -> res (value * value).
Variable bo : byteorder.
Variable os_open : path -> string -> W -> W * option string.
Variable os_read : path -> W -> W * (string + bytes).
Variable os_close : path -> W -> W * option string.
Variable os_mkdir : list string -> W -> W * option string.
Variable new_options : W -> W * option string.
Variable decompiler_pprint : path -> value -> W -> W * option string.
Variable Path : string -> path.
Variable str_path : path -> string.
Variable str_exn : exn -> string.

Abbreviation decompile := (decompile_file zlib_decompress pickle_safe_loads bo
  os_open os_read os_close os_mkdir new_options decompiler_pprint str_path str_exn).

Abbreviation run_main := (main zlib_decompress pickle_safe_loads bo
  os_open os_read os_close os_mkdir new_options decompiler_pprint Path
  str_path str_exn).

Abbreviation run_script := (script zlib_decompress pickle_safe_loads bo
  os_open os_read os_close os_mkdir new_options decompiler_pprint Path
  str_path str_exn).

(** Every way through [decompile_file], one outcome of a call at a time. *)
Ltac run_bridge :=
  unfold decompile_file, decompile_steps, read_ast, with_open, io_bind,
    call_open, call_read, call_close, call_mkdir, call_options, call_pprint,
    raised;
  cbn [world history];
  repeat (case_match; simplify_eq; cbn [world history fst snd] in * );
  rewrite <- ?app_assoc; cbn [app].

Ltac elem_here :=
  solve [repeat first [apply list_elem_of_here | apply list_elem_of_further]].

Ltac elem_cases H :=
  repeat match type of H with
         | _ ∈ _ :: _ => apply elem_of_cons in H as [H|H]
         | _ ∈ [] => by apply elem_of_nil in H
         end.

(** The place of a call in a history is given by the calls in front of it
    and those behind it; these tactics go through all places. *)
Ltac close_follows :=
  first
    [ solve [eexists [], _, _; split; [reflexivity|];
             intros q m r' Hin; elem_cases Hin; discriminate]
    | solve [eexists [_], _, _; split; [reflexivity|];
             intros q m r' Hin; elem_cases Hin; discriminate]
    | solve [eexists [_; _], _, _; split; [reflexivity|];
             intros q m r' Hin; elem_cases Hin; discriminate] ].

Ltac at_open_call :=
  split;
  [ unfold still_open; cbn [fold_left track_open];
    rewrite ?decide_True by done; reflexivity
  | intros Hr; simplify_eq; close_follows ].

Ltac each_place front :=
  destruct front as [|? front]; simplify_eq/=;
  first [ at_open_call | each_place front ].

(** X10: [decompile_file] has one file open at a time and leaves none open.
    On every way through it, whatever the calls return or raise: no file is
    open when [open] is called; each [open] that succeeded is followed by
    the [close] of that file with no call of [open] in between; and no file
    is open when the function returns. *)
Theorem decompile_file_closes_files (input_path output_path : path) (s : run) :
  exists evs : list event,
    history (decompile input_path output_path s).1 = history s ++ evs /\
    still_open evs = [] /\
    forall (front : list event) (p : path) (mode : string)
           (r : option string) (back : list event),
      evs = front ++ Opened p mode r :: back ->
      still_open front = [] /\
      (r = None ->
       exists (mid : list event) (c : option string) (rest : list event),
         back = mid ++ Closed p c :: rest /\
         forall q m r', Opened q m r' ∉ mid).
Proof.
  run_bridge; eexists; (split; [reflexivity|]);
    (split;
     [ unfold still_open; cbn [fold_left track_open];
       rewrite ?decide_True by done; reflexivity
     | intros front p mode r back Heq; each_place front ]).
Qed.

(** X11: the result says [success] exactly when the statements were
    pretty-printed and the output file was closed, both without an
    exception; the key ["error"] is present exactly when [success] is false,
    and the paths are reported as given. *)
Theorem decompile_file_success (input_path output_path : path) (s : run) :
  let r := (decompile input_path output_path s).2 in
  exists evs : list event,
    history (decompile input_path output_path s).1 = history s ++ evs /\
    (success r = true <->
       (exists ast, Pprinted output_path ast None ∈ evs) /\
       last evs = Some (Closed output_path None)) /\
    (success r = true <-> error r = None) /\
    input r = str_path input_path /\ output r = str_path output_path.
Proof.
  cbv zeta. run_bridge; eexists; (split; [reflexivity|]);
    (split_and!; [|done..]); cbn [success last]; split; try done;
    try (intros _; split; [eexists; elem_here|done]);
    intros [[ast Hin] Hlast]; try done; elem_cases Hin; done.
Qed.

(** X12: nothing is done to the output before the input has been parsed.
    If a run makes the directories, opens a file for writing, builds the
    options or pretty-prints, then the bytes read from the input went
    through [read_ast_from_file] without an exception, and what is
    pretty-printed, to the output path only, are the statements it
    returned. *)
Theorem decompile_file_writes_after_parse (input_path output_path : path)
    (s : run) :
  exists evs : list event,
    history (decompile input_path output_path s).1 = history s ++ evs /\
    forall e : event, e ∈ evs -> writes e = true ->
      exists (raw : bytes) (ast : value),
        ReadAll input_path (inr raw) ∈ evs /\
        read_ast_from_file zlib_decompress pickle_safe_loads bo raw = Return ast /\
        forall p a r, Pprinted p a r ∈ evs -> p = output_path /\ a = ast.
Proof.
  run_bridge; eexists; (split; [reflexivity|]); intros e He Hw;
    elem_cases He; subst e; try discriminate Hw;
    (eexists _, _; split_and!; [elem_here|eassumption|]);
    intros p' a' r' Hp; elem_cases Hp; by simplify_eq.
Qed.

(** X13: an archive without a data slot is reported, not decompiled.  When
    the input file opens, reads and closes normally and its bytes are an
    indexed archive whose scan ends at the terminator without a record for
    slot 1, [decompile_file] returns [success = False] with the error text of
    line 50, whatever the other collaborators would do, and has made no call
    but those three. *)
Theorem missing_data_slot_is_reported (input_path output_path : path) (s : run)
    (w1 w2 w3 : W) (raw : bytes) (recs : list (N * N * N)) :
  os_open input_path "rb" (world s) = (w1, None) ->
  os_read input_path w1 = (w2, inr raw) ->
  os_close input_path w2 = (w3, None) ->
  startswith raw magic = true ->
  terminated_index bo raw recs ->
  Forall (fun r => r.1.1 ≠ 1) recs ->
  decompile input_path output_path s =
    (mk_run w3 (history s ++ [Opened input_path "rb" None;
                              ReadAll input_path (inr raw);
                              Closed input_path None]),
     mk_result (str_path input_path) (str_path output_path) false
       (Some no_data_slot)).
Proof.
  intros Hopen Hread Hclose Hmagic Hindex Hslots.
  assert (read_ast_from_file zlib_decompress pickle_safe_loads bo raw =
          Raise (ValueError no_data_slot)) as Hast.
  { unfold read_ast_from_file.
    rewrite (read_payload_terminated bo raw recs Hmagic Hindex).
    unfold store_all. by rewrite lookup_fold_store_absent. }
  unfold decompile_file, decompile_steps, read_ast, with_open, io_bind,
    call_open, call_read, call_close, raised; cbn [world history].
  rewrite Hopen; cbn [world history]. rewrite Hread; cbn [world history].
  rewrite Hast, Hclose; cbn [world history str_exception].
  by rewrite <- !app_assoc.
Qed.

(** ** [main] and the script *)

Lemma decompile_file_history (input_path output_path : path) (s : run) :
  exists evs : list event,
    history (decompile input_path output_path s).1 = history s ++ evs /\
    List.filter is_print evs = [] /\
    (success (decompile input_path output_path s).2 = true ->
     error (decompile input_path output_path s).2 = None).
Proof. run_bridge; eexists; (split_and!; [reflexivity|reflexivity|done]). Qed.

Lemma default_output_None (p : path) :
  default_output p = None -> name p = EmptyString.
Proof.
  unfold default_output, with_suffix. destruct (name p); by repeat case_match.
Qed.

Lemma snoc_inv {A} (l1 l2 : list A) (x y : A) :
  l1 ++ [x] = l2 ++ [y] -> x = y.
Proof. intros H. by apply app_inj_tail in H as [_ ?]. Qed.

(** X14: the exit status of [main] is 0 or 1, and it is 0 exactly when the
    last thing the run did was to print a result with [success] true and no
    ["error"] key. *)
Theorem main_exit_status (argv : list string) (s : run) :
  exists evs : list event,
    history (run_main argv s).1 = history s ++ evs /\
    (exit_status (run_main argv s).2 = 0%nat \/
     exit_status (run_main argv s).2 = 1%nat) /\
    (exit_status (run_main argv s).2 = 0%nat <->
     exists front i o,
       evs = front ++ [Printed [("input", JString i); ("output", JString o);
                                ("success", JBool true)]]).
Proof.
  unfold main. destruct argv as [|prog [|arg1 rest]].
  - exists [Printed [("error", JString usage)]]. split_and!; [done|by right|].
    split; [done|]. intros (front & i & o & H). by apply (snoc_inv []) in H.
  - exists [Printed [("error", JString usage)]]. split_and!; [done|by right|].
    split; [done|]. intros (front & i & o & H). by apply (snoc_inv []) in H.
  - set (chosen := match rest with
                   | arg2 :: _ => Some (Path arg2)
                   | [] => default_output (Path arg1)
                   end).
    destruct chosen as [output_path|].
    + destruct (decompile_file_history (Path arg1) output_path s)
        as (evs & Hhist & _ & Herr).
      destruct (decompile (Path arg1) output_path s) as [s' r].
      cbn [fst snd call_print history exit_status] in *.
      exists (evs ++ [Printed (result_items r)]).
      split_and!; [by rewrite Hhist, app_assoc|destruct (success r); auto|].
      destruct (success r) eqn:Hs; split; try done.
      * intros _. exists evs, (input r), (output r).
        unfold result_items. by rewrite Hs, (Herr eq_refl).
      * intros (front & i & o & H). apply snoc_inv in H.
        unfold result_items in H. destruct (error r); simplify_eq; congruence.
    + exists []. cbn [fst snd exit_status]. split_and!; [by rewrite app_nil_r|by right|].
      split; [done|]. intros (front & i & o & H). by destruct front.
Qed.

(** X15: the script prints one JSON object per run, as the last thing it
    does, on every way through it but one: when no output path is given and
    the input path has an empty name, [with_suffix] raises a [ValueError]
    that nothing catches, and the run ends without any call and without
    output. *)
Theorem script_prints_once (import_error : option string) (argv : list string)
    (s : run) :
  exists evs : list event,
    history (run_script import_error argv s).1 = history s ++ evs /\
    match (run_script import_error argv s).2 with
    | SysExit _ =>
        length (List.filter is_print evs) = 1%nat /\
        exists front items, evs = front ++ [Printed items]
    | Uncaught p =>
        evs = [] /\ world (run_script import_error argv s).1 = world s /\
        import_error = None /\ name p = EmptyString /\
        exists prog arg, argv = [prog; arg] /\ p = Path arg
    end.
Proof.
  unfold script, main. destruct import_error as [msg|].
  { eexists [_]. split; [done|]. split; [done|]. by eexists [], _. }
  destruct argv as [|prog [|arg1 rest]].
  - eexists [_]. split; [done|]. split; [done|]. by eexists [], _.
  - eexists [_]. split; [done|]. split; [done|]. by eexists [], _.
  - destruct rest as [|arg2 rest].
    + destruct (default_output (Path arg1)) as [output_path|] eqn:Hout.
      * destruct (decompile_file_history (Path arg1) output_path s)
          as (evs & Hhist & Hprint & _).
        destruct (decompile (Path arg1) output_path s) as [s' r].
        cbn [fst snd call_print history] in *.
        exists (evs ++ [Printed (result_items r)]).
        split; [by rewrite Hhist, app_assoc|]. split; [|by eauto].
        by rewrite List.filter_app, Hprint.
      * exists []. cbn [fst snd]. split; [by rewrite app_nil_r|].
        split_and!; [done..| |by eauto].
        by apply default_output_None.
    + destruct (decompile_file_history (Path arg1) (Path arg2) s)
        as (evs & Hhist & Hprint & _).
      destruct (decompile (Path arg1) (Path arg2) s) as [s' r].
      cbn [fst snd call_print history] in *.
      exists (evs ++ [Printed (result_items r)]).
      split; [by rewrite Hhist, app_assoc|]. split; [|by eauto].
      by rewrite List.filter_app, Hprint.
Qed.
End BridgeFacts.

Lemma missing_data_slot_is_reported_witness :
  decompile_file Examples.inflate_stored Examples.safe_loads little
    BridgeExamples.os_open BridgeExamples.os_read BridgeExamples.os_close
    BridgeExamples.os_mkdir BridgeExamples.new_options
    BridgeExamples.decompiler_pprint BridgeExamples.str_path
    BridgeExamples.str_exn
    (mk_path [] "bad.rpyc") (mk_path [] "bad.rpy") BridgeExamples.start_of_run =
  (mk_run BridgeExamples.disk
     ([] ++ [Opened (mk_path [] "bad.rpyc") "rb" None;
             ReadAll (mk_path [] "bad.rpyc") (inr Examples.no_slot_1);
             Closed (mk_path [] "bad.rpyc") None]),
   mk_result "bad.rpyc" "bad.rpy" false (Some no_data_slot)).
Proof.
  apply (missing_data_slot_is_reported Examples.inflate_stored
           Examples.safe_loads little
           BridgeExamples.os_open BridgeExamples.os_read BridgeExamples.os_close
           BridgeExamples.os_mkdir BridgeExamples.new_options
           BridgeExamples.decompiler_pprint BridgeExamples.str_path
           BridgeExamples.str_exn
           (mk_path [] "bad.rpyc") (mk_path [] "bad.rpy")
           BridgeExamples.start_of_run
           BridgeExamples.disk BridgeExamples.disk BridgeExamples.disk
           Examples.no_slot_1 [(2, 46, 1); (3, 47, 1)]).
  - by vm_compute.
  - by vm_compute.
  - reflexivity.
  - by vm_compute.
  - index_by_computation.
  - repeat constructor; by vm_compute.
Defined.
